(* Shallow embedding of the adaptive context index and real-time delivery
   layer of adaptive-learn (backend/app): the WebSocket connection manager
   (database.py), the real-time request coordinator (realtime_service.py),
   the FAISS index wrapper (faiss_service.py), outcome logging
   (adaptive_boss_service.py) and the boss-action parser
   (jigsawstack_service.py). *)

From Stdlib Require Import ZArith QArith Reals Lra Sorted.
From stdpp Require Import base gmap sets list strings.

Open Scope Z_scope.

(* ===================================================================== *)
(* Messages sent over a WebSocket (models.py: WebSocketMessageType)      *)
(* ===================================================================== *)

Inductive WebSocketMessageType :=
  | CONNECT | DISCONNECT | HEARTBEAT | BOSS_ACTION_REQUEST
  | BOSS_ACTION_RESPONSE | ACTION_OUTCOME | LEARNING_UPDATE | ERROR | STATUS.

#[global] Instance WebSocketMessageType_eq_dec : EqDecision WebSocketMessageType.
Proof. solve_decision. Defined.

(* Only the fields the coordinator puts in [data] that identify a request
   are kept; the rest of the payload is opaque. *)
Record WebSocketMessage := mkMsg {
  msg_type : WebSocketMessageType;
  msg_request_id : option string;
}.

(* ===================================================================== *)
(* WebSocketConnectionManager (database.py)                              *)
(* ===================================================================== *)

Module WSManager.

(* self.session_info[session_id] *)
Record SessionInfo := mkInfo {
  si_game_id : string;
  si_client_info : list (string * string);
  si_connected_at : Z;             (* asyncio loop time at connect *)
}.

(* A websocket is identified by an opaque number; [outbox] records every
   successful websocket.send_json, in order. *)
Record Manager := mkManager {
  active_connections : gmap string nat;      (* session_id -> websocket *)
  game_sessions : gmap string (gset string); (* game_id -> session ids *)
  session_info : gmap string SessionInfo;    (* session_id -> info *)
  outbox : list (string * WebSocketMessage);
}.

Definition empty_manager : Manager := mkManager ∅ ∅ ∅ [].

(* websocket.accept() either succeeds or raises. *)
Inductive ConnectError := AcceptFailed.

(* connect(websocket, session_id, game_id, client_info): under the lock,
   accept, then overwrite active_connections and session_info and add the
   id to the game's set. *)
Definition connect (m : Manager) (accept_ok : bool) (websocket : nat)
    (session_id game_id : string) (client_info : list (string * string))
    (now : Z) : ConnectError + Manager :=
  if negb accept_ok then inl AcceptFailed else
  let gs := game_sessions m in
  let group := match gs !! game_id with Some g => g | None => ∅ end in
  inr (mkManager
         (<[session_id := websocket]> (active_connections m))
         (<[game_id := group ∪ {[session_id]}]> gs)
         (<[session_id := mkInfo game_id client_info now]> (session_info m))
         (outbox m)).

(* The game-group update of disconnect: [if game_id and game_id in
   self.game_sessions: discard; if empty: del]. An empty string is falsy. *)
Definition drop_from_game (gs : gmap string (gset string))
    (session_id : string) (game_id : option string) : gmap string (gset string) :=
  match game_id with
  | Some g =>
      if bool_decide (g <> "")%string then
        match gs !! g with
        | Some group =>
            let group' := group ∖ {[session_id]} in
            if bool_decide (group' = ∅) then delete g gs
            else <[g := group']> gs
        | None => gs
        end
      else gs
  | None => gs
  end.

(* disconnect(session_id): a no-op unless the id is in active_connections. *)
Definition disconnect (m : Manager) (session_id : string) : Manager :=
  match active_connections m !! session_id with
  | None => m
  | Some _ =>
      let game_id := si_game_id <$> (session_info m !! session_id) in
      mkManager
        (delete session_id (active_connections m))
        (drop_from_game (game_sessions m) session_id game_id)
        (delete session_id (session_info m))
        (outbox m)
  end.

(* send_personal_message(message, session_id): [send_ok s] tells whether
   websocket.send_json to the websocket of session s succeeds; a failing
   send is logged, the session is disconnected and False is returned. *)
Definition send_personal_message (send_ok : string -> bool) (m : Manager)
    (msg : WebSocketMessage) (session_id : string) : bool * Manager :=
  match active_connections m !! session_id with
  | Some _ =>
      if send_ok session_id
      then (true, mkManager (active_connections m) (game_sessions m)
                            (session_info m) (outbox m ++ [(session_id, msg)]))
      else (false, disconnect m session_id)
  | None => (false, m)
  end.

(* cleanup_inactive_sessions(timeout_seconds): collect the ids with
   current_time - connected_at > timeout_seconds, then disconnect each. *)
Definition inactive_sessions (m : Manager) (current_time timeout_seconds : Z)
    : list string :=
  map fst (filter (fun kv => current_time - si_connected_at kv.2 > timeout_seconds)
                  (map_to_list (session_info m))).

Definition cleanup_inactive_sessions (m : Manager) (current_time timeout_seconds : Z)
    : nat * Manager :=
  let sessions_to_remove := inactive_sessions m current_time timeout_seconds in
  (length sessions_to_remove, foldl disconnect m sessions_to_remove).

End WSManager.

(* ===================================================================== *)
(* RealtimeAdaptiveBossService (realtime_service.py)                     *)
(* ===================================================================== *)

Module Realtime.
Import WSManager.











End Realtime.

(* ===================================================================== *)
(* FAISSService (faiss_service.py)                                       *)
(* ===================================================================== *)

Module VectorStore.
Local Open Scope R_scope.

(* settings.embedding_dimension and self.auto_optimize_threshold *)
Definition embedding_dimension : nat := 1536.
Definition auto_optimize_threshold : nat := 100.

(* Vectors and similarity scores are reals; effectiveness scores are
   rationals (they are only compared and averaged). *)
Definition vec := list R.

#[local] Instance Rlt_decision (x y : R) : Decision (x < y) := Rlt_dec x y.

Fixpoint sum_sq (v : vec) : R :=
  match v with [] => 0 | x :: v' => x * x + sum_sq v' end.

(* faiss.normalize_L2 (fvec_renorm_L2): divide by the L2 norm, leave a
   vector of norm 0 unchanged. *)
Definition normalize_L2 (v : vec) : vec :=
  let nr := sum_sq v in
  if Rlt_dec 0 nr then map (fun x => x * / sqrt nr) v else v.

Definition mean (v : vec) : R := fold_right Rplus 0 v / INR (length v).

(* self._calculate_embedding_quality *)
Definition calculate_embedding_quality (v : vec) : R :=
  let norm := sqrt (sum_sq v) in
  if Req_EM_T norm 0 then 0 else
  let normalized := map (fun x => x / norm) v in
  let mu := mean normalized in
  let variance := mean (map (fun x => (x - mu) * (x - mu)) normalized) in
  let sparse := length (filter (fun x => Rabs x < 1 / 1000000) normalized) in
  let sparsity := INR sparse / INR (length normalized) in
  Rmin (variance * 10) 1 * (1 - sparsity).

(* one element of self.metadata[game_id] *)
Record MetaEntry := mkEntry {
  context_id : Z;
  context_data : string;                 (* opaque context dict *)
  effectiveness_score : Q;
  index_position : nat;
  embedding_quality : R;
}.

(* self.indexes[game_id] together with self.metadata[game_id]: the index
   holds the (normalized) vectors by position, index.d is [dimension]. *)
Record Store := mkStore {
  dimension : nat;
  vectors : list vec;
  metadata : list MetaEntry;
}.

Record Service := mkService {
  indexes : gmap string Store;
  entry_counts : gmap string nat;
  rebuilt : list string;                 (* games whose index was rebuilt *)
}.

(* _create_new_index *)
Definition new_store : Store := mkStore embedding_dimension [] [].

(* get_or_create_index (no file on disk) *)
Definition get_or_create_index (svc : Service) (game_id : string) : Service * Store :=
  match indexes svc !! game_id with
  | Some st => (svc, st)
  | None =>
      (mkService (<[game_id := new_store]> (indexes svc))
                 (<[game_id := 0%nat]> (entry_counts svc)) (rebuilt svc),
       new_store)
  end.

(* index.add raises when the row length is not index.d (the assertion of
   faiss's Python wrapper); add_context re-raises. *)
Inductive AddError := AssertionError.

Inductive AddResult :=
  | AddFailed (e : AddError) (svc : Service)
  | Added (auto_optimize_scheduled : bool) (svc : Service).

(* add_context(game_id, context_id, embedding, context_data, effectiveness_score).
   The state change is made in full before the auto-optimize test. The flag
   of [Added] is that test: when it is true the source goes on to call
   asyncio.create_task(self._auto_optimize_index(game_id)), which schedules
   the task on a running event loop but raises RuntimeError when add_context
   runs off the loop (as in run_in_executor's worker thread), and
   add_context re-raises it after the state change. The flag records the
   call, not that a task was scheduled. *)
Definition add_context (svc0 : Service) (game_id : string) (cid : Z) (embedding : vec)
    (data : string) (eff : Q) : AddResult :=
  let '(svc, st) := get_or_create_index svc0 game_id in
  if negb (Nat.eqb (length embedding) (dimension st)) then AddFailed AssertionError svc
  else
    let vectors' := vectors st ++ [normalize_L2 embedding] in
    let entry := mkEntry cid data eff (length vectors' - 1)
                         (calculate_embedding_quality embedding) in
    let st' := mkStore (dimension st) vectors' (metadata st ++ [entry]) in
    let count := (default 0 (entry_counts svc !! game_id) + 1)%nat in
    Added (Nat.eqb (count mod auto_optimize_threshold) 0)
          (mkService (<[game_id := st']> (indexes svc))
                     (<[game_id := count]> (entry_counts svc)) (rebuilt svc)).

(* A dict built for each hit of search_similar_contexts. *)
Record SearchResult := mkResult {
  r_context_id : Z;
  r_context_data : string;
  r_effectiveness_score : Q;
  r_similarity_score : R;
  r_embedding_quality : R;
  r_rank : nat;
}.

(* Python list indexing self.metadata[game_id][idx] (negative from the end);
   None is an IndexError. *)
Definition py_index {A} (l : list A) (i : Z) : option A :=
  if (i <? 0)%Z then
    (if (Z.of_nat (length l) + i <? 0)%Z then None
     else nth_error l (Z.to_nat (Z.of_nat (length l) + i)))
  else nth_error l (Z.to_nat i).

(* The loop over zip(scores[0], indices[0]); None is an exception, which the
   outer try turns into []. *)
Fixpoint collect (meta : list MetaEntry) (k : Z) (min_eff : Q)
    (cands : list (R * Z)) (results : list SearchResult) : option (list SearchResult) :=
  match cands with
  | [] => Some results
  | (score, idx) :: rest =>
      if (idx =? -1)%Z then collect meta k min_eff rest results
      else if (Z.of_nat (length meta) <=? idx)%Z then collect meta k min_eff rest results
      else match py_index meta idx with
           | None => None
           | Some e =>
               if Qle_bool min_eff (effectiveness_score e) then
                 let results' := results ++
                   [mkResult (context_id e) (context_data e) (effectiveness_score e)
                             score (embedding_quality e) (length results + 1)] in
                 if (k <=? Z.of_nat (length results'))%Z then Some results'
                 else collect meta k min_eff rest results'
               else collect meta k min_eff rest results
           end
  end.

(* index.search(query, search_k): the library's (flat or HNSW) search sees
   only the stored vectors, the query and search_k, and returns
   (score, position) pairs best first. *)
Definition IndexSearch := list vec -> vec -> Z -> list (R * Z).

(* search_similar_contexts(game_id, query_embedding, k, min_effectiveness).
   A search_k <= 0 makes index.search raise (caught: []) or return no hit. *)
Definition search_similar_contexts (search : IndexSearch) (svc : Service)
    (game_id : string) (query : vec) (k : Z) (min_eff : Q) : list SearchResult :=
  match indexes svc !! game_id with
  | None => []
  | Some st =>
      let ntotal := length (vectors st) in
      if Nat.eqb ntotal 0 then [] else
      let search_k := Z.min (k * 3) (Z.of_nat ntotal) in
      if (search_k <=? 0)%Z then [] else
      match collect (metadata st) k min_eff
              (search (vectors st) (normalize_L2 query) search_k) [] with
      | Some results => results
      | None => []
      end
  end.

(* A model of faiss.IndexFlatIP.search, for instantiating [IndexSearch]:
   exhaustive inner products, best first, equal scores in position order. *)
Fixpoint dot (a b : vec) : R :=
  match a, b with
  | x :: a', y :: b' => x * y + dot a' b'
  | _, _ => 0
  end.

Fixpoint insert_desc (c : R * Z) (l : list (R * Z)) : list (R * Z) :=
  match l with
  | [] => [c]
  | d :: l' => if Rlt_dec d.1 c.1 then c :: d :: l' else d :: insert_desc c l'
  end.

Definition flat_ip_search : IndexSearch := fun vecs query n =>
  take (Z.to_nat n)
       (foldl (fun acc c => insert_desc c acc) []
              (imap (fun i v => (dot v query, Z.of_nat i)) vecs)).

(* The order the spec asks of Search results, as a relation between an
   earlier result [a] and a later one [b]: no higher similarity later, and
   among equal similarities no higher effectiveness later. (The spec's last
   tie-break, insertion order, only refines this.) *)
Definition spec_rank_before (a b : SearchResult) : Prop :=
  r_similarity_score b < r_similarity_score a \/
  (r_similarity_score a = r_similarity_score b /\
   (r_effectiveness_score b <= r_effectiveness_score a)%Q).

Definition spec_rank_order (results : list SearchResult) : Prop :=
  StronglySorted spec_rank_before results.

(* A tenant whose two entries share one vector, with scores e0 and e1. *)
Definition svc_tie (e0 e1 : Q) : Service :=
  mkService {[ "g" := mkStore 1 [[1]; [1]]
                 [mkEntry 0 "a" e0 0 0; mkEntry 1 "b" e1 1 0] ]}%string ∅ [].

(* An index search that returns both positions of two equal vectors. *)
Definition returns_both_duplicates (search : IndexSearch) : Prop :=
  exists s, search [[1]; [1]] (normalize_L2 [1]) 2%Z ≡ₚ [(s, 0%Z); (s, 1%Z)].

(* remove_ineffective_contexts: positions to keep and to remove *)
Fixpoint partition_positions (min_eff : Q) (meta : list MetaEntry) (i : nat)
    : list nat * list nat :=
  match meta with
  | [] => ([], [])
  | e :: rest =>
      let '(keep, remove) := partition_positions min_eff rest (S i) in
      if Qle_bool min_eff (effectiveness_score e) then (i :: keep, remove)
      else (keep, i :: remove)
  end.

Definition set_index_position (e : MetaEntry) (p : nat) : MetaEntry :=
  mkEntry (context_id e) (context_data e) (effectiveness_score e) p (embedding_quality e).

(* The rebuild loop: reconstruct each kept vector from the old index, add
   it to the new index (of settings.embedding_dimension) and copy its
   metadata with the new position. A failing reconstruct, or new_index.add
   of a vector of another length (faiss asserts d == self.d), raises inside
   the per-vector try: logged, that vector is skipped. *)
Fixpoint reconstruct_kept (old_vecs : list vec) (old_meta : list MetaEntry)
    (keep : list nat) (new_vecs : list vec) (new_meta : list MetaEntry)
    : list vec * list MetaEntry :=
  match keep with
  | [] => (new_vecs, new_meta)
  | i :: rest =>
      match nth_error old_vecs i, nth_error old_meta i with
      | Some v, Some e =>
          if Nat.eqb (length v) embedding_dimension then
            reconstruct_kept old_vecs old_meta rest (new_vecs ++ [v])
                             (new_meta ++ [set_index_position e (length new_vecs)])
          else reconstruct_kept old_vecs old_meta rest new_vecs new_meta
      | _, _ => reconstruct_kept old_vecs old_meta rest new_vecs new_meta
      end
  end.

(* remove_ineffective_contexts(game_id, min_effectiveness): the whole body
   runs under self.index_locks[game_id]. Returns the removed count. *)
Definition remove_ineffective_contexts (svc : Service) (game_id : string) (min_eff : Q)
    : nat * Service :=
  match indexes svc !! game_id with
  | None => (0%nat, svc)
  | Some st =>
      let '(keep, remove) := partition_positions min_eff (metadata st) 0 in
      match remove with
      | [] => (0%nat, svc)
      | _ :: _ =>
          let '(vs, ms) := reconstruct_kept (vectors st) (metadata st) keep [] [] in
          (length remove,
           mkService (<[game_id := mkStore embedding_dimension vs ms]> (indexes svc))
                     (entry_counts svc) (rebuilt svc ++ [game_id]))
      end
  end.

(* _auto_optimize_index: remove_ineffective_contexts(game_id, 0.2) *)
Definition auto_optimize_index (svc : Service) (game_id : string) : nat * Service :=
  remove_ineffective_contexts svc game_id (1 # 5).

(* Two calls started concurrently for one game hold the game's RLock in
   turn: the runs are the two sequential orders (the lock does not drop a
   waiting caller). Indices give the removed counts of the first and second
   call as issued. *)
Inductive concurrent_removals (svc : Service) (game_id : string) (m1 m2 : Q)
    : nat -> nat -> Service -> Prop :=
  | first_wins n1 s1 n2 s2 :
      remove_ineffective_contexts svc game_id m1 = (n1, s1) ->
      remove_ineffective_contexts s1 game_id m2 = (n2, s2) ->
      concurrent_removals svc game_id m1 m2 n1 n2 s2
  | second_wins n1 s1 n2 s2 :
      remove_ineffective_contexts svc game_id m2 = (n2, s2) ->
      remove_ineffective_contexts s2 game_id m1 = (n1, s1) ->
      concurrent_removals svc game_id m1 m2 n1 n2 s1.

Definition rebuild_count (before after : Service) : nat :=
  (length (rebuilt after) - length (rebuilt before))%nat.

End VectorStore.

(* ===================================================================== *)
(* AdaptiveBossService.log_action_outcome (adaptive_boss_service.py)     *)
(* ===================================================================== *)

Module Outcomes.

Definition min_effectiveness_score : Q := 3 # 10.

(* Rows of boss_actions, game_contexts and games, keyed by primary key. *)
Record BossActionRow := mkAction {
  a_game_id : Z;
  a_context_id : Z;
  a_outcome : option string;
  a_effectiveness_score : option Q;
  a_damage_dealt : option Q;
  a_player_hit : option bool;
}.

Record GameContextRow := mkContext {
  c_player_context : string;
  c_embedding_vector : option VectorStore.vec;  (* None: NULL or empty hex *)
  c_usage_count : nat;
  c_avg_effectiveness : Q;
}.

Record GameRow := mkGame { g_game_id : string }.

Record DB := mkDB {
  actions : gmap Z BossActionRow;
  contexts : gmap Z GameContextRow;
  games : gmap Z GameRow;
}.

Record ActionOutcomeData := mkOutcome {
  o_action_id : Z;
  o_outcome : string;
  o_effectiveness_score : Q;
  o_damage_dealt : option Q;
  o_player_hit : option bool;
}.

(* Work handed off by log_action_outcome (asyncio.create_task and the
   cache invalidation). *)
Inductive Effect :=
  | AddContextAsync (game_id : string) (context_id : Z) (embedding : VectorStore.vec)
                    (context_data : string) (effectiveness_score : Q)
  | InvalidateCache (game_id : string)
  | UpdatePerformanceTracking (game_id : string) (effectiveness_score : Q).

Inductive OutcomeError := ActionNotFound | GameNotFound.

Definition qmean (l : list Q) : Q :=
  (fold_right Qplus 0 l / inject_Z (Z.of_nat (length l)))%Q.

(* Scores of the context's actions as the two queries read them. The
   session is created with autoflush=False, so the queries see the stored
   rows, not the pending update of the current action. *)
Definition context_scores (acts : gmap Z BossActionRow) (cid : Z) : list Q :=
  omap (fun kv => if bool_decide (a_context_id kv.2 = cid)
                  then a_effectiveness_score kv.2 else None)
       (map_to_list acts).

(* log_action_outcome(action_outcome, db); an error rolls back: the
   database is left as it was. *)
Definition log_action_outcome (db : DB) (o : ActionOutcomeData)
    : OutcomeError + (DB * list Effect) :=
  match actions db !! o_action_id o with
  | None => inl ActionNotFound
  | Some action =>
      let action' := mkAction (a_game_id action) (a_context_id action)
                       (Some (o_outcome o)) (Some (o_effectiveness_score o))
                       (o_damage_dealt o) (o_player_hit o) in
      match games db !! a_game_id action with
      | None => inl GameNotFound
      | Some game =>
          let cid := a_context_id action in
          let context := contexts db !! cid in
          let contexts' :=
            match context with
            | Some c =>
                let scores := context_scores (actions db) cid in
                if Nat.ltb 0 (length scores)
                then <[cid := mkContext (c_player_context c) (c_embedding_vector c)
                                        (c_usage_count c) (qmean scores)]> (contexts db)
                else contexts db
            | None => contexts db
            end in
          let faiss_effects :=
            if Qle_bool min_effectiveness_score (o_effectiveness_score o) then
              match context with
              | Some c =>
                  match c_embedding_vector c with
                  | Some emb => [AddContextAsync (g_game_id game) cid emb
                                   (c_player_context c) (o_effectiveness_score o)]
                  | None => []
                  end
              | None => []
              end
            else [] in
          inr (mkDB (<[o_action_id o := action']> (actions db)) contexts' (games db),
               faiss_effects ++ [InvalidateCache (g_game_id game);
                                 UpdatePerformanceTracking (g_game_id game)
                                   (o_effectiveness_score o)])
      end
  end.

(* The calls that reach the vector store. *)
Definition is_vector_store_call (e : Effect) : bool :=
  match e with AddContextAsync _ _ _ _ _ => true | _ => false end.

Definition vector_store_calls (effs : list Effect) : list Effect :=
  filter (fun e => is_vector_store_call e = true) effs.

End Outcomes.

(* ===================================================================== *)
(* JigsawStackService boss-action parsing (jigsawstack_service.py)        *)
(* ===================================================================== *)

Module Jigsaw.

(* A Python float: an exact finite value, an infinity or NaN. *)
Inductive PyFloat := PFin (q : Q) | PInf | NInf | NaN.

(* a < b on floats; every comparison with NaN is False. *)
Definition py_lt (a b : PyFloat) : bool :=
  match a, b with
  | PFin x, PFin y => negb (Qle_bool y x)
  | NInf, PFin _ | NInf, PInf | PFin _, PInf => true
  | _, _ => false
  end.

(* The builtins min(a, b) and max(a, b): keep the first argument unless
   the second compares less (resp. greater). *)
Definition py_min (a b : PyFloat) : PyFloat := if py_lt b a then b else a.
Definition py_max (a b : PyFloat) : PyFloat := if py_lt a b then b else a.

(* Decoded JSON. *)
#[warnings="-register-all"]
Inductive json :=
  | JNull
  | JBool (b : bool)
  | JNum (f : PyFloat)
  | JStr (s : string)
  | JArr (l : list json)
  | JObj (fields : list (string * json)).

(* dict.get(key, default): json.loads keeps the last duplicate key. *)
Definition dict_get (fields : list (string * json)) (key : string) (default : json) : json :=
  match find (fun kv => bool_decide (kv.1 = key)) (rev fields) with
  | Some kv => kv.2
  | None => default
  end.

Record PlayerContextData := mkPlayer { dodge_frequency : PyFloat }.

(* The fields of BossActionResponse that these functions set. *)
Record BossActionResponse := mkResponse {
  boss_action : json;
  action_type : json;
  intensity : PyFloat;
  reasoning : option string;
}.

(* Field(ge=0.0, le=1.0) *)
Definition unit_interval (f : PyFloat) : bool :=
  match f with PFin q => Qle_bool 0 q && Qle_bool q 1 | _ => false end.

(* _create_fallback_action(player_context, boss_health, battle_phase) *)
Definition create_fallback_action (pc : option PlayerContextData)
    (boss_health : PyFloat) (battle_phase : string) : BossActionResponse :=
  let '(action, i) :=
    match pc with
    | Some p =>
        if py_lt (PFin (7 # 10)) (dodge_frequency p) then ("area_attack"%string, 6 # 10)
        else if py_lt boss_health (PFin (3 # 10)) then ("desperate_strike"%string, 8 # 10)
        else ("basic_attack"%string, 5 # 10)
    | None =>
        if py_lt boss_health (PFin (3 # 10)) then ("desperate_strike"%string, 8 # 10)
        else ("basic_attack"%string, 5 # 10)
    end in
  mkResponse (JStr action) (JStr "attack") (PFin i)
             (Some "Fallback action due to API unavailability").

Section Parsing.

(* float(s) on a string: Python's float literal grammar ("0.7", "nan",
   "inf", ...); None when it raises ValueError. *)
Variable float_of_str : string -> option PyFloat.

(* Validation by the BossActionResponse constructor of the fields other
   than intensity (boss_action and action_type strings, optional strings,
   lists of strings); false when pydantic raises. *)
Variable other_fields_valid : list (string * json) -> bool.

(* str(x) of a decoded value that is not a string, as an f-string formats
   it ("True", "1.5", "[1, 2]", "{'a': 1}", ...). *)
Variable repr_json : json -> string.

(* float(x) *)
Definition py_float (x : json) : option PyFloat :=
  match x with
  | JNum f => Some f
  | JBool b => Some (PFin (if b then 1 else 0))
  | JStr s => float_of_str s
  | _ => None
  end.

(* The optional numeric fields converted with float(...) when not None. *)
Definition optional_float_ok (fields : list (string * json)) (key : string)
    (default : json) : bool :=
  match dict_get fields key default with
  | JNull => true
  | v => if py_float v then true else false
  end.

(* Truthiness of a decoded value: None, False, 0, 0.0, "", [] and {} are
   false; NaN and the infinities are true. *)
Definition truthy (x : json) : bool :=
  match x with
  | JNull => false
  | JBool b => b
  | JNum (PFin q) => negb (Qeq_bool q 0)
  | JNum _ => true
  | JStr s => negb (bool_decide (s = ""%string))
  | JArr l => negb (bool_decide (l = []))
  | JObj fs => negb (bool_decide (fs = []))
  end.

(* The replacement field of an f-string: format(x), which is str(x). *)
Definition fmt (x : json) : string :=
  match x with
  | JStr s => s
  | _ => repr_json x
  end.

(* full_reasoning: "Decision: ", "Adaptation: " and "Counter-strategy: "
   parts for the truthy reasoning, adaptation_reason and counter_strategy
   (each read with .get, default None), in that order; combined_reasoning
   joins them with " | ", None when there is none. *)
Definition reasoning_of (fields : list (string * json)) : option string :=
  let full_reasoning :=
    flat_map (fun kp => let v := dict_get fields kp.1 JNull in
                        if truthy v then [(kp.2 ++ fmt v)%string] else [])
      [("reasoning", "Decision: "); ("adaptation_reason", "Adaptation: ");
       ("counter_strategy", "Counter-strategy: ")]%string in
  match full_reasoning with
  | [] => None
  | _ :: _ => Some (String.concat " | " full_reasoning)
  end.

(* _parse_boss_action_response(response_data); every exception inside the
   try (a response_data without .get, a failed float(), a rejected field)
   ends in the fallback for (None, 1.0, "unknown"). *)
Definition parse_boss_action_response (response_data : json) : BossActionResponse :=
  let fallback := create_fallback_action None (PFin 1) "unknown" in
  match response_data with
  | JObj fields =>
      match py_float (dict_get fields "intensity" (JNum (PFin (5 # 10)))) with
      | None => fallback
      | Some raw =>
          let i := py_max (PFin 0) (py_min (PFin 1) raw) in
          if forallb (fun kd => optional_float_ok fields kd.1 kd.2)
               [("duration", JNull); ("cooldown", JNull);
                ("damage_multiplier", JNum (PFin 1));
                ("success_probability", JNull); ("confidence_level", JNull)]%string
             && other_fields_valid fields
             && unit_interval i
          then mkResponse (dict_get fields "boss_action" (JStr "basic attack"))
                          (dict_get fields "action_type" (JStr "attack"))
                          i (reasoning_of fields)
          else fallback
      end
  | _ => fallback
  end.

(* The outcome of one requests.post attempt. HttpResponse carries the
   status and response.json() (None: the body is not JSON, which requests
   raises as a RequestException). *)
Inductive Attempt :=
  | HttpResponse (status : Z) (body : option json)
  | HttpTimeout
  | HttpRequestError
  | HttpOtherError.

Inductive LoopOutcome := Returned (r : BossActionResponse) | Raised | FellThrough.

Definition max_retries : nat := 3.

(* for attempt in range(self.max_retries): ... ; [attempt] counts up from
   0 and [left] is the number of iterations still to run. *)
Fixpoint retry_loop (outcomes : nat -> Attempt) (attempt left : nat) : LoopOutcome :=
  match left with
  | O => FellThrough
  | S left' =>
      let last := Nat.eqb attempt (max_retries - 1) in
      let retry := if last then Raised else retry_loop outcomes (S attempt) left' in
      match outcomes attempt with
      | HttpResponse 200 (Some result) =>
          match result with
          | JObj fields => Returned (parse_boss_action_response
                                       (dict_get fields "result" (JObj [])))
          | _ => Raised                      (* AttributeError: no .get *)
          end
      | HttpResponse _ _ => retry
      | HttpTimeout => retry
      | HttpRequestError => retry
      | HttpOtherError => Raised
      end
  end.

(* int(boss_health * 100) raises on an infinity or NaN. *)
Definition py_int_ok (f : PyFloat) : bool :=
  match f with PFin _ => true | _ => false end.

(* generate_boss_action (sync version); None is the implicit return None
   after a loop that neither returned nor raised. *)
Definition generate_boss_action (outcomes : nat -> Attempt)
    (player_context : PlayerContextData) (boss_health : PyFloat)
    (battle_phase : string) : option BossActionResponse :=
  if negb (py_int_ok boss_health)
  then Some (create_fallback_action (Some player_context) boss_health battle_phase)
  else
    match retry_loop outcomes 0 max_retries with
    | Returned r => Some r
    | Raised => Some (create_fallback_action (Some player_context) boss_health battle_phase)
    | FellThrough => None
    end.

End Parsing.

End Jigsaw.

(* ===================================================================== *)
(* Broadcasts and queries of WebSocketConnectionManager (database.py)    *)
(* ===================================================================== *)

Module WSBroadcast.
Import WSManager.

(* [if exclude_session and session_id == exclude_session: continue];
   an empty string is falsy. *)
Definition is_excluded (exclude_session : option string) (session_id : string) : bool :=
  match exclude_session with
  | Some e => bool_decide (e <> "")%string && bool_decide (session_id = e)
  | None => false
  end.

(* The loop of broadcast_to_game / broadcast_to_all over a snapshot of the
   session ids. *)
Fixpoint broadcast_loop (send_ok : string -> bool) (msg : WebSocketMessage)
    (exclude_session : option string) (m : Manager) (sessions : list string)
    (sent_count : nat) (sessions_to_remove : list string)
    : nat * list string * Manager :=
  match sessions with
  | [] => (sent_count, sessions_to_remove, m)
  | session_id :: rest =>
      if is_excluded exclude_session session_id
      then broadcast_loop send_ok msg exclude_session m rest sent_count sessions_to_remove
      else
        let '(ok, m') := send_personal_message send_ok m msg session_id in
        if ok
        then broadcast_loop send_ok msg exclude_session m' rest (S sent_count)
                            sessions_to_remove
        else broadcast_loop send_ok msg exclude_session m' rest sent_count
                            (sessions_to_remove ++ [session_id])
  end.

(* broadcast_to_game(message, game_id, exclude_session): iterate over a
   copy of the game's set, then disconnect the failed sessions. A Python
   set is iterated in the implementation's order: [order group] lists the
   set's elements in that order. *)
Definition broadcast_to_game (order : gset string -> list string)
    (send_ok : string -> bool) (m : Manager) (msg : WebSocketMessage)
    (game_id : string) (exclude_session : option string) : nat * Manager :=
  match game_sessions m !! game_id with
  | None => (0%nat, m)
  | Some group =>
      let '(sent_count, sessions_to_remove, m') :=
        broadcast_loop send_ok msg exclude_session m (order group) 0 [] in
      (sent_count, foldl disconnect m' sessions_to_remove)
  end.

(* broadcast_to_all(message): iterate over list(active_connections.keys()),
   listed by [keys] in the dict's order. *)
Definition broadcast_to_all (keys : gmap string nat -> list string)
    (send_ok : string -> bool) (m : Manager) (msg : WebSocketMessage) : nat * Manager :=
  let '(sent_count, sessions_to_remove, m') :=
    broadcast_loop send_ok msg None m (keys (active_connections m)) 0 [] in
  (sent_count, foldl disconnect m' sessions_to_remove).

(* get_game_sessions(game_id), get_game_sessions_count(game_id) and
   get_active_sessions_count() *)
Definition get_game_sessions (m : Manager) (game_id : string) : gset string :=
  default ∅ (game_sessions m !! game_id).

Definition get_game_sessions_count (m : Manager) (game_id : string) : nat :=
  size (get_game_sessions m game_id).

Definition get_active_sessions_count (m : Manager) : nat :=
  size (active_connections m).

(* A member of the loop reached by a broadcast actually receives the
   message: not excluded, still connected, and its send succeeds. *)
Definition deliverable (send_ok : string -> bool) (exclude_session : option string)
    (m : Manager) (s : string) : bool :=
  negb (is_excluded exclude_session s) &&
  bool_decide (is_Some (active_connections m !! s)) && send_ok s.

(* active_connections and session_info hold the same session ids. *)
Definition reg_consistent (m : Manager) : Prop :=
  forall s, is_Some (active_connections m !! s) <-> is_Some (session_info m !! s).

(* The condition of cleanup_inactive_sessions on one session_info item. *)
Definition expired (now timeout : Z) (kv : string * SessionInfo) : Prop :=
  now - si_connected_at kv.2 > timeout.

#[global] Instance expired_dec (now timeout : Z) (kv : string * SessionInfo) :
  Decision (expired now timeout kv).
Proof. unfold expired. apply _. Defined.

End WSBroadcast.

(* ===================================================================== *)
(* Performance metrics of RealtimeAdaptiveBossService (realtime_service.py) *)
(* ===================================================================== *)

Module Metrics.
Local Open Scope Q_scope.

(* a < b on Python floats, here exact rationals *)
Definition q_lt (a b : Q) : bool := negb (Qle_bool b a).

(* self.performance_metrics *)
Record PerformanceMetrics := mkMetrics {
  actions_per_minute : Q;
  avg_response_time : Q;
  total_requests : Z;
  successful_requests : Z;
  start_time : Q;
}.

(* __init__: {'actions_per_minute': 0, 'avg_response_time': 0.0,
   'total_requests': 0, 'successful_requests': 0, 'start_time': time.time()} *)
Definition initial_metrics (now : Q) : PerformanceMetrics := mkMetrics 0 0 0%Z 0%Z now.

(* _update_metrics(response_time, success), [now] being time.time() *)
Definition update_metrics (pm : PerformanceMetrics) (response_time : Q) (success : bool)
    (now : Q) : PerformanceMetrics :=
  let total := (total_requests pm + 1)%Z in
  let successful := if success then (successful_requests pm + 1)%Z
                    else successful_requests pm in
  let avg := if q_lt 0 response_time
             then (avg_response_time pm * inject_Z (total - 1)%Z + response_time) / inject_Z total
             else avg_response_time pm in
  let elapsed_time := now - start_time pm in
  let apm := if q_lt 0 elapsed_time then inject_Z total / (elapsed_time / 60)
             else actions_per_minute pm in
  mkMetrics apm avg total successful (start_time pm).

(* A sequence of _update_metrics calls: (response_time, success, time.time()). *)
Definition run_metrics (pm : PerformanceMetrics) (calls : list (Q * bool * Q))
    : PerformanceMetrics :=
  fold_left (fun acc c => update_metrics acc c.1.1 c.1.2 c.2) calls pm.

(* get_realtime_stats() *)
Record RealtimeStats := mkRealtimeStats {
  rs_active_sessions : nat;
  rs_actions_per_minute : Q;
  rs_avg_response_time : Q;
  rs_learning_rate : Q;
  rs_cache_hit_rate : Q;
}.

Definition get_realtime_stats (m : WSManager.Manager) (pm : PerformanceMetrics)
    : RealtimeStats :=
  mkRealtimeStats (WSBroadcast.get_active_sessions_count m) (actions_per_minute pm)
    (avg_response_time pm)
    (inject_Z (successful_requests pm) / inject_Z (Z.max 1 (total_requests pm)))
    (85 # 100).

End Metrics.

(* ===================================================================== *)
(* Score updates of FAISSService (faiss_service.py)                      *)
(* ===================================================================== *)

Module FaissUpdates.
Import VectorStore.

(* entry['effectiveness_score'] = new_score *)
Definition set_effectiveness (e : MetaEntry) (s : Q) : MetaEntry :=
  mkEntry (context_id e) (context_data e) s (index_position e) (embedding_quality e).

Definition set_metadata (svc : Service) (game_id : string) (st : Store)
    (meta : list MetaEntry) : Service :=
  mkService (<[game_id := mkStore (dimension st) (vectors st) meta]> (indexes svc))
            (entry_counts svc) (rebuilt svc).

(* The loop of update_effectiveness_score: update the first entry with the
   context id, then break. *)
Fixpoint update_first (cid : Z) (new_score : Q) (meta : list MetaEntry) : list MetaEntry :=
  match meta with
  | [] => []
  | e :: rest =>
      if Z.eqb (context_id e) cid then set_effectiveness e new_score :: rest
      else e :: update_first cid new_score rest
  end.

(* update_effectiveness_score(game_id, context_id, new_score) *)
Definition update_effectiveness_score (svc : Service) (game_id : string) (cid : Z)
    (new_score : Q) : Service :=
  match indexes svc !! game_id with
  | None => svc
  | Some st => set_metadata svc game_id st (update_first cid new_score (metadata st))
  end.

(* dict(updates): later pairs overwrite earlier ones. *)
Definition py_dict (updates : list (Z * Q)) : gmap Z Q :=
  foldl (fun d kv => <[kv.1 := kv.2]> d) ∅ updates.

(* batch_update_effectiveness_scores(game_id, updates) *)
Definition batch_update_effectiveness_scores (svc : Service) (game_id : string)
    (updates : list (Z * Q)) : Service :=
  match indexes svc !! game_id with
  | None => svc
  | Some st =>
      let update_dict := py_dict updates in
      set_metadata svc game_id st
        (map (fun e => match update_dict !! context_id e with
                       | Some s => set_effectiveness e s
                       | None => e
                       end) (metadata st))
  end.

End FaissUpdates.

(* ===================================================================== *)
(* EmbeddingService (embedding_service.py)                               *)
(* ===================================================================== *)

Module Embeddings.
Import VectorStore.
Local Open Scope R_scope.

(* self.cache_ttl *)
Definition cache_ttl : R := 3600.

(* self.cache[context_hash] = {'embedding': ..., 'timestamp': time.time()} *)
Record CacheEntry := mkCacheEntry {
  ce_embedding : vec;
  ce_timestamp : R;
}.

Abbreviation Cache := (gmap string CacheEntry).

#[local] Instance Rlt_decision (x y : R) : Decision (x < y) := Rlt_dec x y.
#[local] Instance Rle_decision (x y : R) : Decision (x <= y) := Rle_dec x y.
#[local] Instance Rge_decision (x y : R) : Decision (x >= y) := Rge_dec x y.

Record CacheStats := mkCacheStats {
  total_entries : nat;
  valid_entries : nat;
  expired_entries : nat;
  cache_hit_rate : R;
  memory_usage_mb : R;
}.

(* current_time - entry['timestamp'] < self.cache_ttl *)
Definition entry_valid (current_time : R) (entry : CacheEntry) : bool :=
  bool_decide (current_time - ce_timestamp entry < cache_ttl).

(* current_time - entry['timestamp'] >= self.cache_ttl *)
Definition entry_expired (current_time : R) (entry : CacheEntry) : bool :=
  bool_decide (current_time - ce_timestamp entry >= cache_ttl).

(* The counting loop of get_cache_stats over self.cache.values(). *)
Definition count_entries (current_time : R) (entries : list CacheEntry) : nat * nat :=
  foldl (fun (acc : nat * nat) entry =>
           if entry_valid current_time entry
           then (S acc.1, acc.2) else (acc.1, S acc.2)) (0%nat, 0%nat) entries.

(* get_cache_stats(), [current_time] being time.time() *)
Definition get_cache_stats (cache : Cache) (current_time : R) : CacheStats :=
  let '(valid, expired) := count_entries current_time (map_to_list cache).*2 in
  mkCacheStats (size cache) valid expired
    (INR valid / INR (Nat.max 1 (size cache)))
    (INR (size cache) * INR embedding_dimension * 4 / (1024 * 1024)).

(* The list comprehension of clear_expired_cache. *)
Definition expired_keys (cache : Cache) (current_time : R) : list string :=
  map fst (filter (fun kv => entry_expired current_time kv.2 = true) (map_to_list cache)).

(* clear_expired_cache(): delete each expired key, return how many *)
Definition clear_expired_cache (cache : Cache) (current_time : R) : nat * Cache :=
  let ks := expired_keys cache current_time in
  (length ks, foldl (fun c k => delete k c) cache ks).

(* create_context_embedding(player_context): [context_hash] is
   create_context_hash(player_context); [embed] is the embedding the OpenAI
   call returns for the context's text (None: the call raises, and the
   error is re-raised), [stored_at] the time.time() read after it. *)
Definition create_context_embedding (cache : Cache) (context_hash : string)
    (embed : option vec) (current_time stored_at : R) : option vec * Cache :=
  match cache !! context_hash with
  | Some entry =>
      if entry_valid current_time entry
      then (Some (ce_embedding entry), cache)
      else
        let cache1 := delete context_hash cache in
        match embed with
        | None => (None, cache1)
        | Some v => (Some v, <[context_hash := mkCacheEntry v stored_at]> cache1)
        end
  | None =>
      match embed with
      | None => (None, cache)
      | Some v => (Some v, <[context_hash := mkCacheEntry v stored_at]> cache)
      end
  end.

Fixpoint sum (v : vec) : R := match v with [] => 0 | x :: v' => x + sum v' end.

(* np.var: mean of squared deviations from the mean *)
Definition np_var (v : vec) : R :=
  let mu := sum v / INR (length v) in
  sum (map (fun x => (x - mu) * (x - mu)) v) / INR (length v).

(* np.allclose(embedding, 0): |x| <= atol + rtol * 0 with atol = 1e-8 *)
Definition allclose_zero (v : vec) : bool :=
  forallb (fun x => bool_decide (Rabs x <= 1 / 100000000)) v.

(* get_embedding_quality_score(embedding) *)
Definition get_embedding_quality_score (embedding : vec) : R :=
  if allclose_zero embedding then 0 else
  let norm := sqrt (sum_sq embedding) in
  let variance := np_var embedding in
  let sparsity := INR (length (filter (fun x => bool_decide (Rabs x < 1 / 1000000)) embedding))
                  / INR (length embedding) in
  Rmin norm 1 * (3 / 10) + Rmin (variance * 100) 1 * (5 / 10) + (1 - sparsity) * (2 / 10).

End Embeddings.

(* ===================================================================== *)
(* Performance tracking in the real-time cache (adaptive_boss_service.py, *)
(* RealtimeCache of database.py)                                          *)
(* ===================================================================== *)

Module PerfTracking.
Local Open Scope Q_scope.

Definition q_lt (a b : Q) : bool := negb (Qle_bool b a).

Inductive Trend := improving | declining | stable.

(* The stats dict written by _initialize_game_cache and
   _update_performance_tracking. *)
Record GameStats := mkStats {
  actions_count : Z;
  avg_effectiveness : Q;
  performance_trend : Trend;
  last_updated : Q;
}.

(* A Redis value: the str() of a stats dict (read back by eval) or an
   integer counter. *)
Inductive RedisValue := RStats (s : GameStats) | RInt (n : Z).

(* Redis: each key holds a value and the time its TTL runs out. *)
Abbreviation Redis := (gmap string (RedisValue * Q)).

Definition prefix : string := "adaptive_boss:".
Definition stats_key (game_id : string) : string := (prefix ++ "stats:" ++ game_id)%string.

(* GET at time [now]: a key past its expiry is gone. *)
Definition redis_get (r : Redis) (key : string) (now : Q) : option RedisValue :=
  match r !! key with
  | Some (v, expires) => if q_lt now expires then Some v else None
  | None => None
  end.

(* SETEX key ttl value *)
Definition redis_setex (r : Redis) (key : string) (ttl : Q) (v : RedisValue) (now : Q) : Redis :=
  <[key := (v, now + ttl)]> r.

(* set_game_stats(game_id, stats, ttl=300) *)
Definition set_game_stats (r : Redis) (game_id : string) (stats : GameStats) (now : Q) : Redis :=
  redis_setex r (stats_key game_id) 300 (RStats stats) now.

(* get_game_stats(game_id): eval(data) if data else {} *)
Definition get_game_stats (r : Redis) (game_id : string) (now : Q) : option GameStats :=
  match redis_get r (stats_key game_id) now with
  | Some (RStats s) => Some s
  | _ => None
  end.

(* increment_counter(key, ttl=3600): INCR then EXPIRE in one pipeline. A
   missing key counts from 0; INCR on a key holding a stats dict fails
   (the EXPIRE still runs) and the error is raised (None). *)
Definition increment_counter (r : Redis) (key : string) (now : Q) : option Z * Redis :=
  let k := (prefix ++ key)%string in
  match redis_get r k now with
  | Some (RStats s) => (None, redis_setex r k 3600 (RStats s) now)
  | Some (RInt n) => (Some (n + 1)%Z, redis_setex r k 3600 (RInt (n + 1)) now)
  | None => (Some 1%Z, redis_setex r k 3600 (RInt 1) now)
  end.

(* _initialize_game_cache(game_id) *)
Definition initialize_game_cache (r : Redis) (game_id : string) (now : Q) : Redis :=
  set_game_stats r game_id (mkStats 0%Z 0 stable now) now.

(* _update_performance_tracking(game_id, effectiveness_score) *)
Definition update_performance_tracking (r : Redis) (game_id : string)
    (effectiveness_score : Q) (now : Q) : Redis :=
  match increment_counter r ("actions:" ++ game_id) now with
  | (None, r1) => r1
  | (Some _, r1) =>
  match get_game_stats r1 game_id now with
  | None => r1
  | Some current_stats =>
      let actions_count' := (actions_count current_stats + 1)%Z in
      let current_avg := avg_effectiveness current_stats in
      let new_avg := (current_avg * inject_Z (actions_count' - 1)%Z + effectiveness_score)
                     / inject_Z actions_count' in
      let trend := if q_lt current_avg new_avg then improving
                   else if q_lt new_avg current_avg then declining else stable in
      set_game_stats r1 game_id (mkStats actions_count' new_avg trend now) now
  end
  end.

(* Successive calls (effectiveness_score, time.time()). *)
Definition run_tracking (r : Redis) (game_id : string) (calls : list (Q * Q)) : Redis :=
  fold_left (fun acc c => update_performance_tracking acc game_id c.1 c.2) calls r.

End PerfTracking.

(* ===================================================================== *)
(* Properties                                                            *)
(* ===================================================================== *)

Module WSManagerFacts.
Import WSManager.

Lemma disconnect_outbox (m : Manager) (s : string) :
  outbox (disconnect m s) = outbox m.
Proof. unfold disconnect. by destruct (active_connections m !! s). Qed.


Lemma disconnect_absent (m : Manager) (s : string) :
  active_connections m !! s = None -> disconnect m s = m.
Proof. unfold disconnect. by intros ->. Qed.

Lemma drop_from_game_removes (gs : gmap string (gset string)) (s g : string) :
  g <> ""%string ->
  forall grp, drop_from_game gs s (Some g) !! g = Some grp -> s ∉ grp.
Proof.
  intros Hg grp. unfold drop_from_game.
  rewrite bool_decide_true by done.
  destruct (gs !! g) as [group|] eqn:Hgs.
  - case_bool_decide as Hempty.
    + by rewrite lookup_delete_eq.
    + rewrite lookup_insert_eq. intros [= <-]. set_solver.
  - (* the id was in no group for this game *)
    intros Hl. congruence.
Qed.

End WSManagerFacts.

Module RegistryClaims.
Import WSManager WSManagerFacts.

(** C9: disconnect is idempotent: a second disconnect of the same session
    gives the same manager as the first, a disconnect of an absent session
    changes nothing, and disconnecting a registered session (whose game id is
    a non-empty path segment) removes it from active_connections, from
    session_info and from its game's group. *)
Theorem disconnect_idempotent_removes (m : Manager) (s : string) (ws : nat)
    (i : SessionInfo) :
  active_connections m !! s = Some ws ->
  session_info m !! s = Some i ->
  si_game_id i <> ""%string ->
  disconnect (disconnect m s) s = disconnect m s /\
  active_connections (disconnect m s) !! s = None /\
  session_info (disconnect m s) !! s = None /\
  (forall grp, game_sessions (disconnect m s) !! si_game_id i = Some grp -> s ∉ grp) /\
  (forall s', active_connections m !! s' = None -> disconnect m s' = m).
Proof.
  intros Hws Hi Hg.
  assert (Hac : active_connections (disconnect m s) !! s = None).
  { unfold disconnect. rewrite Hws. simpl. by rewrite lookup_delete_eq. }
  split; [by apply disconnect_absent|].
  split; [done|].
  split.
  { unfold disconnect. rewrite Hws. simpl. by rewrite lookup_delete_eq. }
  split.
  - unfold disconnect. rewrite Hws, Hi. simpl.
    by apply drop_from_game_removes.
  - intros s'. apply disconnect_absent.
Qed.

Definition m_connected : Manager :=
  match connect empty_manager true 1 "s" "g" [] 0 with
  | inr m => m | inl _ => empty_manager end.

Lemma disconnect_idempotent_removes_witness :
  disconnect (disconnect m_connected "s") "s" = disconnect m_connected "s".
Proof.
  apply (disconnect_idempotent_removes m_connected "s" 1 (mkInfo "g" [] 0));
    [vm_compute; reflexivity | vm_compute; reflexivity | discriminate].
Defined.

(** C7 (amended): connect never rejects a session id that is already
    registered: with a successful accept it always succeeds, overwrites the
    session's websocket and info, sets the new game's group to its previous
    members plus the id, and leaves every other session, every other game's
    group and the delivered messages as they were (so a stale membership
    in a previous game survives). *)
Theorem connect_overwrites (m : Manager) (ws : nat) (s g : string)
    (ci : list (string * string)) (now : Z) :
  exists m', connect m true ws s g ci now = inr m' /\
    active_connections m' !! s = Some ws /\
    session_info m' !! s = Some (mkInfo g ci now) /\
    game_sessions m' !! g = Some (default ∅ (game_sessions m !! g) ∪ {[s]}) /\
    (exists grp, game_sessions m' !! g = Some grp /\ s ∈ grp) /\
    (forall s', s' <> s -> active_connections m' !! s' = active_connections m !! s'
                           /\ session_info m' !! s' = session_info m !! s') /\
    (forall g', g' <> g -> game_sessions m' !! g' = game_sessions m !! g') /\
    outbox m' = outbox m.
Proof.
  eexists. split; [reflexivity|]. simpl.
  split; [by rewrite lookup_insert_eq|].
  split; [by rewrite lookup_insert_eq|].
  split; [rewrite lookup_insert_eq; by destruct (game_sessions m !! g)|].
  split.
  { eexists. rewrite lookup_insert_eq. split; [reflexivity|]. set_solver. }
  split; [|split; [|done]].
  - intros s' Hne. by rewrite !lookup_insert_ne by congruence.
  - intros g' Hne. by rewrite lookup_insert_ne by congruence.
Qed.

(** C7 (counterexample): connecting "s" again, for another game, while it
    is registered is not rejected: the call succeeds, the registration of
    "s" changes, and "s" stays in the old game's group. *)
Lemma connect_duplicate_accepted :
  exists m2, connect m_connected true 2 "s" "g2" [] 5 = inr m2 /\
    session_info m2 !! "s" <> session_info m_connected !! "s" /\
    (exists grp, game_sessions m2 !! "g" = Some grp /\ "s" ∈ grp).
Proof.
  eexists. split; [reflexivity|]. split.
  - vm_compute. discriminate.
  - eexists. split; [vm_compute; reflexivity|]. set_solver.
Qed.

End RegistryClaims.

Module RealtimeClaims.
Import WSManager WSManagerFacts Realtime RegistryClaims.












End RealtimeClaims.

Module VectorStoreFacts.
Import VectorStore.
Local Open Scope R_scope.

Definition sim_desc (a b : R) : Prop := b <= a.

Lemma collect_filter (meta : list MetaEntry) (k : Z) (m : Q) (cands : list (R * Z)) :
  forall res out, collect meta k m cands res = Some out ->
  (forall r, In r res -> (m <= r_effectiveness_score r)%Q) ->
  forall r, In r out -> (m <= r_effectiveness_score r)%Q.
Proof.
  induction cands as [|[score idx] rest IH]; intros res out Hc Hres; simpl in Hc.
  - injection Hc as <-. exact Hres.
  - destruct (idx =? -1)%Z; [eapply IH; eauto|].
    destruct (Z.of_nat (length meta) <=? idx)%Z; [eapply IH; eauto|].
    destruct (py_index meta idx) as [e|]; [|discriminate].
    destruct (Qle_bool m (effectiveness_score e)) eqn:Hq; [|eapply IH; eauto].
    apply Qle_bool_iff in Hq.
    assert (Hres' : forall r, In r (res ++ [mkResult (context_id e) (context_data e)
                      (effectiveness_score e) score (embedding_quality e)
                      (length res + 1)]) -> (m <= r_effectiveness_score r)%Q).
    { intros r Hr. apply in_app_or in Hr as [Hr|[<-|[]]]; [by apply Hres|exact Hq]. }
    destruct (k <=? _)%Z; [injection Hc as <-; exact Hres'|].
    eapply IH; eauto.
Qed.

Lemma collect_length (meta : list MetaEntry) (k : Z) (m : Q) (cands : list (R * Z)) :
  forall res out, collect meta k m cands res = Some out ->
  (Z.of_nat (length res) < k)%Z -> (length out <= Z.to_nat k)%nat.
Proof.
  induction cands as [|[score idx] rest IH]; intros res out Hc Hres; simpl in Hc.
  - injection Hc as <-. lia.
  - destruct (idx =? -1)%Z; [eapply IH; eauto|].
    destruct (Z.of_nat (length meta) <=? idx)%Z; [eapply IH; eauto|].
    destruct (py_index meta idx) as [e|]; [|discriminate].
    destruct (Qle_bool m (effectiveness_score e)); [|eapply IH; eauto].
    destruct (k <=? _)%Z eqn:Hk.
    + injection Hc as <-. rewrite length_app. simpl. lia.
    + apply Z.leb_gt in Hk. eapply IH; eauto.
Qed.

Lemma collect_from_candidates (meta : list MetaEntry) (k : Z) (m : Q)
    (cands : list (R * Z)) :
  forall res out, collect meta k m cands res = Some out ->
  forall r, In r out -> In r res \/ exists idx, In (r_similarity_score r, idx) cands.
Proof.
  induction cands as [|[score idx] rest IH]; intros res out Hc r Hr; simpl in Hc.
  - injection Hc as <-. by left.
  - assert (Hlift : In r res \/ (exists idx', In (r_similarity_score r, idx') rest) ->
                    In r res \/ exists idx', In (r_similarity_score r, idx')
                                                ((score, idx) :: rest)).
    { intros [H|[i H]]; [by left|right; exists i; by right]. }
    destruct (idx =? -1)%Z; [apply Hlift; eapply IH; eauto|].
    destruct (Z.of_nat (length meta) <=? idx)%Z; [apply Hlift; eapply IH; eauto|].
    destruct (py_index meta idx) as [e|]; [|discriminate].
    destruct (Qle_bool m (effectiveness_score e)); [|apply Hlift; eapply IH; eauto].
    set (new := mkResult (context_id e) (context_data e) (effectiveness_score e) score
                         (embedding_quality e) (length res + 1)).
    assert (Hnew : In r (res ++ [new]) ->
                   In r res \/ exists idx', In (r_similarity_score r, idx')
                                               ((score, idx) :: rest)).
    { intros H. apply in_app_or in H as [H|[<-|[]]]; [by left|].
      right. exists idx. by left. }
    destruct (k <=? _)%Z; [injection Hc as <-; by apply Hnew|].
    destruct (IH _ _ Hc r Hr) as [H|H]; [by apply Hnew|by apply Hlift; right].
Qed.

Lemma collect_sublist (meta : list MetaEntry) (k : Z) (m : Q) (cands : list (R * Z)) :
  forall res out, collect meta k m cands res = Some out ->
  map r_similarity_score out `sublist_of` map r_similarity_score res ++ map fst cands.
Proof.
  induction cands as [|[score idx] rest IH]; intros res out Hc; simpl in Hc.
  - injection Hc as <-. rewrite app_nil_r. done.
  - assert (Hskip : forall l, l `sublist_of` map r_similarity_score res ++ map fst rest ->
                    l `sublist_of` map r_similarity_score res ++ map fst ((score, idx) :: rest)).
    { intros l Hl. simpl. etrans; [exact Hl|].
      apply sublist_app; [done|]. by apply sublist_cons_r; left. }
    destruct (idx =? -1)%Z; [apply Hskip; eapply IH; eauto|].
    destruct (Z.of_nat (length meta) <=? idx)%Z; [apply Hskip; eapply IH; eauto|].
    destruct (py_index meta idx) as [e|]; [|discriminate].
    destruct (Qle_bool m (effectiveness_score e)); [|apply Hskip; eapply IH; eauto].
    destruct (k <=? _)%Z.
    + injection Hc as <-. rewrite map_app. simpl.
      apply sublist_app; [done|].
      apply sublist_skip, sublist_nil_l.
    + apply IH in Hc. rewrite map_app, <- app_assoc in Hc. exact Hc.
Qed.

(* A result built from the candidate (score, position) c of the index. *)
Definition from_candidate (meta : list MetaEntry) (r : SearchResult) (c : R * Z) : Prop :=
  r_similarity_score r = c.1 /\
  exists e, py_index meta c.2 = Some e /\ r_context_id r = context_id e /\
    r_context_data r = context_data e /\ r_effectiveness_score r = effectiveness_score e.

Lemma collect_picks (meta : list MetaEntry) (k : Z) (m : Q) (cands : list (R * Z)) :
  forall res out, collect meta k m cands res = Some out ->
  exists new sel, out = res ++ new /\ sel `sublist_of` cands /\
    Forall2 (from_candidate meta) new sel.
Proof.
  induction cands as [|[score idx] rest IH]; intros res out Hc; simpl in Hc.
  - injection Hc as <-. exists [], []. rewrite app_nil_r. done.
  - assert (Hskip : forall out', collect meta k m rest res = Some out' ->
              exists new sel, out' = res ++ new /\ sel `sublist_of` (score, idx) :: rest /\
                Forall2 (from_candidate meta) new sel).
    { intros out' H. destruct (IH _ _ H) as (new & sel & -> & Hs & HF).
      exists new, sel. split; [done|]. split; [by apply sublist_cons|done]. }
    destruct (idx =? -1)%Z; [by apply Hskip|].
    destruct (Z.of_nat (length meta) <=? idx)%Z; [by apply Hskip|].
    destruct (py_index meta idx) as [e|] eqn:He; [|discriminate].
    destruct (Qle_bool m (effectiveness_score e)); [|by apply Hskip].
    set (r0 := mkResult (context_id e) (context_data e) (effectiveness_score e) score
                        (embedding_quality e) (length res + 1)).
    assert (H0 : from_candidate meta r0 (score, idx)).
    { split; [done|]. exists e. done. }
    destruct (k <=? _)%Z.
    + injection Hc as <-. exists [r0], [(score, idx)]. split; [done|].
      split; [apply sublist_skip, sublist_nil_l|by constructor].
    + destruct (IH _ _ Hc) as (new & sel & -> & Hs & HF).
      exists (r0 :: new), ((score, idx) :: sel). split; [by rewrite <- app_assoc|].
      split; [by apply sublist_skip|by constructor].
Qed.

Lemma StronglySorted_sublist {A} (Rel : A -> A -> Prop) (l1 l2 : list A) :
  l1 `sublist_of` l2 -> StronglySorted Rel l2 -> StronglySorted Rel l1.
Proof.
  induction 1 as [|x l1 l2 Hsub IH|x l1 l2 Hsub IH]; intros Hs.
  - constructor.
  - apply StronglySorted_inv in Hs as [Hs HF]. constructor; [by apply IH|].
    rewrite Forall_forall in HF |- *. intros y Hy. apply HF.
    by eapply elem_of_sublist.
  - apply StronglySorted_inv in Hs as [Hs _]. by apply IH.
Qed.

End VectorStoreFacts.

Module SearchClaims.
Import VectorStore VectorStoreFacts.
Local Open Scope R_scope.

Ltac empty_results := simpl; repeat split; intros; try contradiction; lia.

(** C2: for every index search, tenant, query, k and min_effectiveness,
    every result of search_similar_contexts has effectiveness_score >=
    min_effectiveness, there are at most k results, and each result is one of
    the candidates the index returned for search_k = min(3k, ntotal). *)
Theorem search_effectiveness_filter (search : IndexSearch) (svc : Service)
    (game_id : string) (query : vec) (k : Z) (min_eff : Q) :
  let results := search_similar_contexts search svc game_id query k min_eff in
  (forall r, In r results -> (min_eff <= r_effectiveness_score r)%Q) /\
  (length results <= Z.to_nat k)%nat /\
  (forall r, In r results -> exists st idx, indexes svc !! game_id = Some st /\
      In (r_similarity_score r, idx)
         (search (vectors st) (normalize_L2 query)
                 (Z.min (k * 3) (Z.of_nat (length (vectors st)))))).
Proof.
  simpl. unfold search_similar_contexts.
  destruct (indexes svc !! game_id) as [st|] eqn:Hst; [|empty_results].
  destruct (Nat.eqb (length (vectors st)) 0); [empty_results|].
  destruct (Z.min (k * 3) (Z.of_nat (length (vectors st))) <=? 0)%Z eqn:Hk;
    [empty_results|].
  apply Z.leb_gt in Hk.
  destruct (collect (metadata st) k min_eff _ []) as [out|] eqn:Hc;
    [|empty_results].
  split; [|split].
  - eapply collect_filter; [exact Hc|by intros ? []].
  - eapply collect_length; [exact Hc|]. simpl. lia.
  - intros r Hr. destruct (collect_from_candidates _ _ _ _ _ _ Hc r Hr) as [[]|[idx Hin]].
    exists st, idx. by split.
Qed.

(** C3 (amended): search_similar_contexts applies no ordering of its own:
    each result is built from a distinct candidate (score, position) of the
    index, with that candidate's score and the metadata entry at that
    position, and the results follow the candidates in the index's order;
    so their similarity scores are a subsequence of the candidates' scores,
    and the results are in descending similarity whenever the index
    returns its candidates that way. *)
Theorem search_keeps_index_order (search : IndexSearch) (svc : Service)
    (game_id : string) (query : vec) (k : Z) (min_eff : Q) (st : Store) :
  indexes svc !! game_id = Some st ->
  let cands := search (vectors st) (normalize_L2 query)
                      (Z.min (k * 3) (Z.of_nat (length (vectors st)))) in
  let results := search_similar_contexts search svc game_id query k min_eff in
  (exists sel, sel `sublist_of` cands /\ Forall2 (from_candidate (metadata st)) results sel) /\
  map r_similarity_score results `sublist_of` map fst cands /\
  (StronglySorted sim_desc (map fst cands) ->
   StronglySorted sim_desc (map r_similarity_score results)).
Proof.
  intros Hst cands results.
  assert (Hsel : exists sel, sel `sublist_of` cands /\
                   Forall2 (from_candidate (metadata st)) results sel).
  { subst results cands. unfold search_similar_contexts. rewrite Hst.
    destruct (Nat.eqb (length (vectors st)) 0); [exists []; split; [apply sublist_nil_l|done]|].
    destruct (_ <=? 0)%Z; [exists []; split; [apply sublist_nil_l|done]|].
    destruct (collect (metadata st) k min_eff _ []) as [out|] eqn:Hc;
      [|exists []; split; [apply sublist_nil_l|done]].
    destruct (collect_picks _ _ _ _ _ _ Hc) as (new & sel & -> & Hs & HF).
    exists sel. done. }
  assert (Hsub : map r_similarity_score results `sublist_of` map fst cands).
  { destruct Hsel as (sel & Hs & HF).
    replace (map r_similarity_score results) with (map fst sel).
    - clear HF. induction Hs; simpl; [apply sublist_nil_l|by apply sublist_skip|by apply sublist_cons].
    - clear Hs. induction HF as [|r c results' sel' [Hrc _] _ IH]; [done|].
      simpl. by rewrite Hrc, IH. }
  split; [exact Hsel|]. split; [exact Hsub|].
  intros Hs. exact (StronglySorted_sublist _ _ _ Hsub Hs).
Qed.

Lemma search_keeps_index_order_witness :
  map r_similarity_score
      (search_similar_contexts flat_ip_search (svc_tie (1 # 2) (9 # 10)) "g" [1] 2 0)
    `sublist_of`
  map fst (flat_ip_search [[1]; [1]] (normalize_L2 [1]) (Z.min (2 * 3) 2)).
Proof.
  apply (search_keeps_index_order flat_ip_search (svc_tie (1 # 2) (9 # 10)) "g" [1] 2 0
           (mkStore 1 [[1]; [1]] [mkEntry 0 "a" (1 # 2) 0 0; mkEntry 1 "b" (9 # 10) 1 0])).
  reflexivity.
Defined.

Lemma flat_ip_search_returns_both_duplicates : returns_both_duplicates flat_ip_search.
Proof.
  exists (dot [1] (normalize_L2 [1])). unfold flat_ip_search. simpl.
  destruct (Rlt_dec _ _) as [Hlt|_]; [exfalso; exact (Rlt_irrefl _ Hlt)|].
  reflexivity.
Qed.

Lemma search_tie_unfold (search : IndexSearch) (e0 e1 : Q) :
  search_similar_contexts search (svc_tie e0 e1) "g" [1] 2 0
  = match collect [mkEntry 0 "a" e0 0 0; mkEntry 1 "b" e1 1 0] 2 0
            (search [[1]; [1]] (normalize_L2 [1]) 2%Z) [] with
    | Some results => results
    | None => []
    end.
Proof. reflexivity. Qed.

(** C3 (counterexample): no index search that, like the flat index, returns
    both of two equal vectors makes the claimed order hold: the index sees
    only vectors, so one of two tenants that differ only in which of the two
    tied entries is more effective gets the less effective one first. *)
Lemma tie_order_ignores_effectiveness :
  ~ (exists search : IndexSearch, returns_both_duplicates search /\
       forall svc game_id query k min_eff,
         spec_rank_order (search_similar_contexts search svc game_id query k min_eff)).
Proof.
  intros [search [[s Hp] Hclaim]].
  pose proof (Hclaim (svc_tie (1 # 2) (9 # 10)) "g" [1] 2%Z 0%Q) as H1.
  pose proof (Hclaim (svc_tie (9 # 10) (1 # 2)) "g" [1] 2%Z 0%Q) as H2.
  unfold spec_rank_order in H1, H2. rewrite search_tie_unfold in H1, H2.
  symmetry in Hp. apply Permutation_length_2_inv in Hp as [Hp|Hp];
    rewrite Hp in H1, H2; simpl in H1, H2.
  - apply StronglySorted_inv in H1 as [_ HF]. inversion HF as [|? ? Hb]; subst.
    destruct Hb as [Hlt|[_ Hq]]; [exact (Rlt_irrefl _ Hlt)|].
    unfold Qle in Hq; simpl in Hq; lia.
  - apply StronglySorted_inv in H2 as [_ HF]. inversion HF as [|? ? Hb]; subst.
    destruct Hb as [Hlt|[_ Hq]]; [exact (Rlt_irrefl _ Hlt)|].
    unfold Qle in Hq; simpl in Hq; lia.
Qed.

End SearchClaims.

Module InsertClaims.
Import VectorStore.
Local Open Scope R_scope.

Lemma sum_sq_nonneg (v : vec) : 0 <= sum_sq v.
Proof.
  induction v as [|x v IH]; simpl; [lra|].
  pose proof (Rle_0_sqr x) as Hx. unfold Rsqr in Hx. lra.
Qed.

Lemma sum_sq_scale (v : vec) (c : R) :
  sum_sq (map (fun x => x * c) v) = c * c * sum_sq v.
Proof. induction v as [|x v IH]; simpl; [ring|]. rewrite IH. ring. Qed.

(* faiss.normalize_L2 really gives unit length when the norm is positive. *)
Lemma normalize_L2_unit (v : vec) : 0 < sum_sq v -> sum_sq (normalize_L2 v) = 1.
Proof.
  intros Hpos. unfold normalize_L2.
  destruct (Rlt_dec 0 (sum_sq v)) as [_|Hn]; [|contradiction].
  rewrite sum_sq_scale.
  pose proof (sqrt_lt_R0 _ Hpos) as Hs.
  pose proof (sqrt_sqrt _ (Rlt_le _ _ Hpos)) as Hss.
  rewrite <- Hss at 3. field. lra.
Qed.

Lemma normalize_L2_zero (v : vec) : sum_sq v = 0 -> normalize_L2 v = v.
Proof.
  intros H0. unfold normalize_L2.
  destruct (Rlt_dec 0 (sum_sq v)) as [Hlt|_]; [lra|done].
Qed.

(** C4 (amended): on an existing tenant store, add_context with a vector
    whose length differs from the index dimension fails with the error of
    the index's add (an AssertionError, not a DimensionMismatch of its own)
    and leaves the service unchanged; with a matching length it appends
    normalize_L2 of the vector and a metadata entry at the next position and
    increments the entry count. normalize_L2 makes a vector of positive norm
    unit length and leaves a zero vector unchanged. *)
Theorem add_context_dimension (svc : Service) (game_id : string) (cid : Z)
    (embedding : vec) (data : string) (eff : Q) (st : Store) :
  indexes svc !! game_id = Some st ->
  (length embedding <> dimension st ->
   add_context svc game_id cid embedding data eff = AddFailed AssertionError svc) /\
  (length embedding = dimension st ->
   exists scheduled, add_context svc game_id cid embedding data eff
     = Added scheduled
         (mkService
            (<[game_id := mkStore (dimension st) (vectors st ++ [normalize_L2 embedding])
                 (metadata st ++ [mkEntry cid data eff (length (vectors st))
                                    (calculate_embedding_quality embedding)])]>
               (indexes svc))
            (<[game_id := (default 0 (entry_counts svc !! game_id) + 1)%nat]>
               (entry_counts svc))
            (rebuilt svc))) /\
  (0 < sum_sq embedding -> sum_sq (normalize_L2 embedding) = 1) /\
  (sum_sq embedding = 0 -> normalize_L2 embedding = embedding).
Proof.
  intros Hst. unfold add_context, get_or_create_index. rewrite Hst.
  split; [|split; [|split]].
  - intros Hne. apply Nat.eqb_neq in Hne. by rewrite Hne.
  - intros Heq. apply Nat.eqb_eq in Heq. rewrite Heq. simpl.
    rewrite length_app. simpl.
    replace (length (vectors st) + 1 - 1)%nat with (length (vectors st)) by lia.
    by eexists.
  - apply normalize_L2_unit.
  - apply normalize_L2_zero.
Qed.

Definition svc_one_tenant : Service :=
  mkService {[ "g" := new_store ]}%string {[ "g" := 0%nat ]}%string [].

Lemma add_context_dimension_witness :
  add_context svc_one_tenant "g" 1 [1] "ctx" (1 # 2)
    = AddFailed AssertionError svc_one_tenant.
Proof.
  apply (add_context_dimension svc_one_tenant "g" 1 [1] "ctx" (1 # 2) new_store);
    [reflexivity | discriminate].
Defined.

Lemma sum_sq_repeat_zero (n : nat) : sum_sq (repeat 0 n) = 0.
Proof. induction n as [|n IH]; simpl; [done|]. rewrite IH. ring. Qed.

(** C4 (counterexample): a zero vector of the tenant's dimension (1536) is
    accepted and stored as it is, with sum of squares 0: it is not
    normalized to unit length. *)
Lemma zero_vector_not_unit :
  exists scheduled st',
    add_context svc_one_tenant "g" 1 (repeat 0 embedding_dimension) "ctx" (1 # 2)
      = Added scheduled st' /\
    indexes st' !! "g"%string
      = Some (mkStore embedding_dimension [repeat 0 embedding_dimension]
                [mkEntry 1 "ctx" (1 # 2) 0
                   (calculate_embedding_quality (repeat 0 embedding_dimension))]) /\
    sum_sq (repeat 0 embedding_dimension) <> 1.
Proof.
  destruct (add_context_dimension svc_one_tenant "g" 1 (repeat 0 embedding_dimension)
              "ctx" (1 # 2) new_store eq_refl) as [_ [Hadd [_ Hzero]]].
  destruct Hadd as [scheduled Hadd]; [apply repeat_length|].
  rewrite Hzero in Hadd by apply sum_sq_repeat_zero.
  eexists _, _. split; [exact Hadd|]. split.
  - cbn [indexes]. by rewrite lookup_insert_eq.
  - rewrite sum_sq_repeat_zero. lra.
Qed.

End InsertClaims.

Module CompactionClaims.
Import VectorStore.
Local Open Scope R_scope.

Definition passes (min_eff : Q) (e : MetaEntry) : Prop :=
  Qle_bool min_eff (effectiveness_score e) = true.

Lemma partition_keep_passes (min_eff : Q) (meta : list MetaEntry) :
  forall i keep remove,
  partition_positions min_eff meta i = (keep, remove) ->
  forall j, In j keep ->
  (i <= j)%nat /\ forall e, nth_error meta (j - i) = Some e -> passes min_eff e.
Proof.
  induction meta as [|e rest IH]; intros i keep remove Hp j Hj; simpl in Hp.
  - inversion Hp; subst; contradiction.
  - destruct (partition_positions min_eff rest (S i)) as [k' r'] eqn:Hr.
    pose proof (IH (S i) k' r' Hr) as IHr.
    destruct (Qle_bool min_eff (effectiveness_score e)) eqn:He;
      inversion Hp; subst.
    + destruct Hj as [<-|Hj].
      * split; [lia|]. rewrite Nat.sub_diag. simpl. by intros ? [= <-].
      * destruct (IHr j Hj) as [Hle Hn]. split; [lia|].
        replace (j - i)%nat with (S (j - S i)) by lia. exact Hn.
    + destruct (IHr j Hj) as [Hle Hn]. split; [lia|].
      replace (j - i)%nat with (S (j - S i)) by lia. exact Hn.
Qed.

Lemma partition_all_pass (min_eff : Q) (meta : list MetaEntry) :
  Forall (passes min_eff) meta ->
  forall i, snd (partition_positions min_eff meta i) = [].
Proof.
  induction 1 as [|e rest He Hrest IH]; intros i; simpl; [done|].
  specialize (IH (S i)).
  destruct (partition_positions min_eff rest (S i)) as [k' r']; simpl in *.
  unfold passes in He. by rewrite He.
Qed.

Lemma reconstruct_kept_passes (min_eff : Q) (old_vecs : list vec)
    (old_meta : list MetaEntry) (keep : list nat) :
  (forall j, In j keep -> forall e, nth_error old_meta j = Some e -> passes min_eff e) ->
  forall new_vecs new_meta,
  Forall (passes min_eff) new_meta ->
  Forall (passes min_eff) (snd (reconstruct_kept old_vecs old_meta keep new_vecs new_meta)).
Proof.
  induction keep as [|i rest IH]; intros Hk new_vecs new_meta Hn; simpl; [done|].
  assert (Hk' : forall j, In j rest -> forall e, nth_error old_meta j = Some e ->
                passes min_eff e) by (intros j Hj; apply Hk; by right).
  destruct (nth_error old_vecs i) as [v|]; [|by apply IH].
  destruct (nth_error old_meta i) as [e|] eqn:He; [|by apply IH].
  destruct (Nat.eqb _ _); [|by apply IH].
  apply IH; [done|]. apply Forall_app. split; [done|].
  constructor; [|constructor]. exact (Hk i (or_introl eq_refl) e He).
Qed.

(* A removal either leaves the service as it is or installs the rebuilt
   store of the game and records one rebuild. *)
Lemma remove_shape (svc : Service) (game_id : string) (min_eff : Q) n s1 :
  remove_ineffective_contexts svc game_id min_eff = (n, s1) ->
  (n = 0%nat /\ s1 = svc) \/
  (exists vs ms, Forall (passes min_eff) ms /\
     s1 = mkService (<[game_id := mkStore embedding_dimension vs ms]> (indexes svc))
                    (entry_counts svc) (rebuilt svc ++ [game_id])).
Proof.
  unfold remove_ineffective_contexts.
  destruct (indexes svc !! game_id) as [st|]; [|intros [= <- <-]; by left].
  destruct (partition_positions min_eff (metadata st) 0) as [keep remove] eqn:Hp.
  destruct remove as [|r rs]; [intros [= <- <-]; by left|].
  destruct (reconstruct_kept (vectors st) (metadata st) keep [] []) as [vs ms] eqn:Hr.
  intros [= <- <-]. right. exists vs, ms. split; [|done].
  change ms with (snd (vs, ms)). rewrite <- Hr.
  apply reconstruct_kept_passes; [|constructor].
  intros j Hj e He. destruct (partition_keep_passes _ _ _ _ _ Hp j Hj) as [_ Hn].
  apply Hn. by rewrite Nat.sub_0_r.
Qed.

(* Running the same removal again on its own result does nothing. *)
Lemma remove_idempotent (svc : Service) (game_id : string) (min_eff : Q) n s1 :
  remove_ineffective_contexts svc game_id min_eff = (n, s1) ->
  remove_ineffective_contexts s1 game_id min_eff = (0%nat, s1).
Proof.
  intros H. pose proof H as Hcopy.
  apply remove_shape in H as [[-> ->] | (vs & ms & Hms & ->)].
  - exact Hcopy.
  - unfold remove_ineffective_contexts at 1. cbn [indexes].
    rewrite lookup_insert_eq. cbn [metadata].
    pose proof (partition_all_pass min_eff ms Hms 0) as Hp.
    by destruct (partition_positions min_eff ms 0) as [keep []].
Qed.

Lemma remove_rebuilt (svc : Service) (game_id : string) (min_eff : Q) n s1 :
  remove_ineffective_contexts svc game_id min_eff = (n, s1) ->
  rebuilt s1 = rebuilt svc \/ rebuilt s1 = rebuilt svc ++ [game_id].
Proof.
  intros H. apply remove_shape in H as [[_ ->] | (vs & ms & _ & ->)]; [by left | by right].
Qed.

(** C5 (amended): two concurrent calls of remove_ineffective_contexts for
    the same game hold the game's lock in turn, so the second waits and then
    runs in full (it is not dropped). When both use the same threshold, the
    final state is the result of a single removal, the call that runs second
    returns 0 and changes nothing, so one of the two removed counts is 0
    and at most one rebuild is recorded. *)
Theorem same_threshold_single_rebuild (svc : Service) (game_id : string)
    (min_eff : Q) (n1 n2 : nat) (s' : Service) :
  concurrent_removals svc game_id min_eff min_eff n1 n2 s' ->
  (exists n s1,
     remove_ineffective_contexts svc game_id min_eff = (n, s1) /\
     remove_ineffective_contexts s1 game_id min_eff = (0%nat, s1) /\
     s' = s1 /\
     ((n1 = n /\ n2 = 0%nat) \/ (n1 = 0%nat /\ n2 = n))) /\
  (n1 = 0%nat \/ n2 = 0%nat) /\ (rebuild_count svc s' <= 1)%nat.
Proof.
  unfold rebuild_count.
  intros [a1 s1 a2 s2 H1 H2 | a1 s1 a2 s2 H2 H1].
  - pose proof (remove_idempotent _ _ _ _ _ H1) as Hi. rewrite Hi in H2.
    injection H2 as <- <-. split; [|split; [by right|]].
    + exists a1, s1. repeat split; try done. by left.
    + destruct (remove_rebuilt _ _ _ _ _ H1) as [-> | ->]; rewrite ?length_app; simpl; lia.
  - pose proof (remove_idempotent _ _ _ _ _ H2) as Hi. rewrite Hi in H1.
    injection H1 as <- <-. split; [|split; [by left|]].
    + exists a2, s2. repeat split; try done. by right.
    + destruct (remove_rebuilt _ _ _ _ _ H2) as [-> | ->]; rewrite ?length_app; simpl; lia.
Qed.

Definition svc_mixed : Service :=
  mkService {[ "g" := mkStore embedding_dimension
                 [repeat 1 embedding_dimension; repeat 1 embedding_dimension]
                 [mkEntry 0 "a" (1 # 10) 0 0; mkEntry 1 "b" (1 # 4) 1 0] ]}%string
            ∅ [].

Lemma same_threshold_single_rebuild_witness :
  concurrent_removals svc_mixed "g" (1 # 5) (1 # 5) 1 0
    (snd (remove_ineffective_contexts svc_mixed "g" (1 # 5))) /\
  ((1 = 0 \/ 0 = 0) /\
   rebuild_count svc_mixed (snd (remove_ineffective_contexts svc_mixed "g" (1 # 5))) <= 1)%nat.
Proof.
  assert (Hc : concurrent_removals svc_mixed "g" (1 # 5) (1 # 5) 1 0
                 (snd (remove_ineffective_contexts svc_mixed "g" (1 # 5))))
    by (eapply first_wins; reflexivity).
  split; [exact Hc | exact (proj2 (same_threshold_single_rebuild _ _ _ _ _ _ Hc))].
Defined.

(** C5 (counterexample): two concurrent calls for the same game with
    thresholds 0.2 and 0.3 may both rebuild: when the 0.2 call takes the
    lock first it removes the 0.1 entry, then the 0.3 call waits, runs and
    removes the 0.25 entry, so each call returns 1 and two rebuilds are
    recorded. *)
Lemma queued_compaction_rebuilds_twice :
  exists s',
    concurrent_removals svc_mixed "g" (1 # 5) (3 # 10) 1 1 s' /\
    rebuild_count svc_mixed s' = 2%nat.
Proof.
  eexists. split.
  - eapply first_wins; reflexivity.
  - reflexivity.
Qed.

End CompactionClaims.

Module OutcomeClaims.
Import Outcomes.

Definition usage_of (db : DB) (cid : Z) : option nat :=
  c_usage_count <$> contexts db !! cid.

(** C8 (amended): a successful log_action_outcome stores the reported score
    on the action row and leaves the usage_count of every context as it
    was. The only call it hands to the vector store is add_context (an
    insert, not an update of an existing entry) with the reported score
    itself, not a mean; it is issued exactly when the score is at least 0.3
    and the action's context exists with an embedding. *)
Theorem outcome_passes_reported_score (db db' : DB) (o : ActionOutcomeData)
    (effs : list Effect) :
  log_action_outcome db o = inr (db', effs) ->
  (exists action', actions db' !! o_action_id o = Some action' /\
     a_effectiveness_score action' = Some (o_effectiveness_score o)) /\
  (forall cid, usage_of db' cid = usage_of db cid) /\
  exists action game,
    actions db !! o_action_id o = Some action /\
    games db !! a_game_id action = Some game /\
    vector_store_calls effs =
      (if Qle_bool min_effectiveness_score (o_effectiveness_score o) then
         match contexts db !! a_context_id action with
         | Some c =>
             match c_embedding_vector c with
             | Some emb => [AddContextAsync (g_game_id game) (a_context_id action) emb
                              (c_player_context c) (o_effectiveness_score o)]
             | None => []
             end
         | None => []
         end
       else []).
Proof.
  unfold log_action_outcome.
  destruct (actions db !! o_action_id o) as [action|] eqn:Ha; [|discriminate].
  destruct (games db !! a_game_id action) as [game|] eqn:Hg; [|discriminate].
  intros [= <- <-]. split; [|split].
  - eexists. cbn [actions]. rewrite lookup_insert_eq. split; reflexivity.
  - intros cid. unfold usage_of. cbn [contexts].
    destruct (contexts db !! a_context_id action) as [c|] eqn:Hc; [|done].
    destruct (Nat.ltb 0 _); [|done].
    destruct (decide (cid = a_context_id action)) as [->|Hne].
    + by rewrite lookup_insert_eq, Hc.
    + by rewrite lookup_insert_ne by congruence.
  - exists action, game. split; [done|]. split; [done|].
    unfold vector_store_calls. rewrite filter_app.
    destruct (Qle_bool _ _); [|reflexivity].
    destruct (contexts db !! a_context_id action) as [c|]; [|reflexivity].
    destruct (c_embedding_vector c); reflexivity.
Qed.

(* Action 1 (no score yet) and action 2 (score 0.5) belong to context 7,
   which has been used once with mean 0.5 and has an embedding. *)
Definition db_example : DB :=
  mkDB {[ 1 := mkAction 10 7 None None None None;
          2 := mkAction 10 7 (Some "hit") (Some (1 # 2)) None None ]}
       {[ 7 := mkContext "ctx" (Some [1%R]) 1 (1 # 2) ]}
       {[ 10 := mkGame "g" ]}.

Definition outcome_example : ActionOutcomeData :=
  mkOutcome 1 "hit" (9 # 10) None None.

Lemma outcome_passes_reported_score_witness :
  exists db' effs,
    log_action_outcome db_example outcome_example = inr (db', effs) /\
    usage_of db' 7 = usage_of db_example 7.
Proof.
  eexists _, _. split; [reflexivity|].
  exact (proj1 (proj2 (outcome_passes_reported_score db_example _ outcome_example _
                         eq_refl)) 7).
Defined.

(** C8 (counterexample): reporting 0.9 on action 1 of the example, whose
    context has usage_count 1 and mean 0.5, hands the vector store an
    add_context call carrying 0.9 (the running mean weighted by the prior
    usage_count would be 0.7), and the context's usage_count stays 1. *)
Lemma outcome_inserts_raw_score :
  exists db' effs,
    log_action_outcome db_example outcome_example = inr (db', effs) /\
    vector_store_calls effs = [AddContextAsync "g" 7 [1%R] "ctx" (9 # 10)] /\
    usage_of db' 7 = Some 1%nat /\
    ~ ((9 # 10) == ((1 # 2) * 1 + (9 # 10)) / 2)%Q.
Proof.
  eexists _, _. split; [reflexivity|]. split; [reflexivity|]. split; [reflexivity|].
  discriminate.
Qed.

End OutcomeClaims.

Module JigsawClaims.
Import Jigsaw.

Definition fallback_intensity (f : PyFloat) : Prop :=
  f = PFin (5 # 10) \/ f = PFin (6 # 10) \/ f = PFin (8 # 10).

Lemma create_fallback_action_intensity (pc : option PlayerContextData)
    (boss_health : PyFloat) (battle_phase : string) :
  fallback_intensity (intensity (create_fallback_action pc boss_health battle_phase)).
Proof.
  unfold fallback_intensity, create_fallback_action.
  destruct pc as [p|];
    repeat match goal with |- context [if ?b then _ else _] => destruct b end;
    simpl; tauto.
Qed.

Lemma fallback_unit_interval (f : PyFloat) :
  fallback_intensity f -> unit_interval f = true.
Proof. by intros [-> | [-> | ->]]. Qed.

Section Generate.
Variable float_of_str : string -> option PyFloat.
Variable other_fields_valid : list (string * json) -> bool.
Variable repr_json : json -> string.

Lemma parse_unit_interval (response_data : json) :
  unit_interval (intensity
    (parse_boss_action_response float_of_str other_fields_valid repr_json response_data)) = true.
Proof.
  pose proof (fallback_unit_interval _
                (create_fallback_action_intensity None (PFin 1) "unknown")) as Hf.
  unfold parse_boss_action_response.
  destruct response_data as [| | | | |fields]; try exact Hf.
  destruct (py_float float_of_str _) as [raw|]; [|exact Hf].
  match goal with |- context [if ?c then _ else _] => destruct c eqn:Hc end;
    [|exact Hf].
  apply andb_true_iff in Hc as [_ Hc]. exact Hc.
Qed.

Definition loop_ok (l : LoopOutcome) : Prop :=
  match l with
  | Returned r => unit_interval (intensity r) = true
  | Raised => True
  | FellThrough => False
  end.

Lemma retry_loop_ok (outcomes : nat -> Attempt) (left : nat) :
  forall attempt, (attempt + left = max_retries)%nat -> (0 < left)%nat ->
  loop_ok (retry_loop float_of_str other_fields_valid repr_json outcomes attempt left).
Proof.
  induction left as [|left IH]; intros attempt Hsum Hpos; [lia|].
  assert (Hretry : loop_ok (if Nat.eqb attempt (max_retries - 1) then Raised
                            else retry_loop float_of_str other_fields_valid repr_json
                                   outcomes (S attempt) left)).
  { destruct (Nat.eqb attempt (max_retries - 1)) eqn:Hl; [exact I|].
    apply Nat.eqb_neq in Hl. unfold max_retries in *. apply IH; lia. }
  simpl. destruct (outcomes attempt) as [status body| | |]; try exact Hretry;
    [|exact I].
  destruct (Z.eq_dec status 200) as [->|Hne].
  - destruct body as [result|]; [|exact Hretry].
    destruct result; try exact I. apply parse_unit_interval.
  - destruct status as [|p|p]; try exact Hretry;
      repeat (destruct p as [p|p|]; try exact Hretry); congruence.
Qed.

End Generate.

(** C10: generate_boss_action always produces a response (it never falls
    through to None) and its intensity lies in [0, 1], whatever float()
    accepts, whatever the field validation decides and whatever the
    attempts return. A parsed response carries the reported intensity
    clamped by max(0.0, min(1.0, x)); every fallback has intensity 0.5, 0.6
    or 0.8. *)
Theorem boss_action_intensity_in_unit_interval
    (float_of_str : string -> option PyFloat)
    (other_fields_valid : list (string * json) -> bool)
    (repr_json : json -> string)
    (outcomes : nat -> Attempt) (player_context : PlayerContextData)
    (boss_health : PyFloat) (battle_phase : string) :
  (exists r, generate_boss_action float_of_str other_fields_valid repr_json outcomes
               player_context boss_health battle_phase = Some r /\
             unit_interval (intensity r) = true) /\
  (forall fields raw,
     py_float float_of_str (dict_get fields "intensity" (JNum (PFin (5 # 10)))) = Some raw ->
     let r := parse_boss_action_response float_of_str other_fields_valid repr_json (JObj fields) in
     r = create_fallback_action None (PFin 1) "unknown" \/
     intensity r = py_max (PFin 0) (py_min (PFin 1) raw)) /\
  (forall pc bh phase, fallback_intensity (intensity (create_fallback_action pc bh phase))).
Proof.
  split; [|split].
  - unfold generate_boss_action.
    pose proof (fallback_unit_interval _
      (create_fallback_action_intensity (Some player_context) boss_health battle_phase))
      as Hf.
    destruct (negb (py_int_ok boss_health)); [by eexists|].
    pose proof (retry_loop_ok float_of_str other_fields_valid repr_json outcomes max_retries 0
                  eq_refl ltac:(unfold max_retries; lia)) as Hl.
    destruct (retry_loop _ _ _ _ 0 max_retries) as [r| |]; [by eexists|by eexists|done].
  - intros fields raw Hraw. simpl. rewrite Hraw.
    match goal with |- context [if ?c then _ else _] => destruct c end;
      [by right | by left].
  - apply create_fallback_action_intensity.
Qed.

End JigsawClaims.

Module ManagerExtras.
Import WSManager WSBroadcast WSManagerFacts.


Lemma disconnect_active (m : Manager) (s x : string) :
  active_connections (disconnect m s) !! x =
  if decide (x = s) then None else active_connections m !! x.
Proof.
  unfold disconnect. destruct (active_connections m !! s) eqn:Hs; simpl.
  - destruct (decide (x = s)) as [->|Hne];
      [by rewrite lookup_delete_eq | by rewrite lookup_delete_ne].
  - destruct (decide (x = s)) as [->|]; done.
Qed.

Lemma deliverable_ext (send_ok : string -> bool) (ex : option string) (m1 m2 : Manager)
    (l : list string) :
  (forall x, x ∈ l -> active_connections m1 !! x = active_connections m2 !! x) ->
  filter (fun s => deliverable send_ok ex m1 s = true) l =
  filter (fun s => deliverable send_ok ex m2 s = true) l.
Proof.
  induction l as [|y l IH]; intros Hl; [done|].
  assert (Hy : deliverable send_ok ex m1 y = deliverable send_ok ex m2 y)
    by (unfold deliverable; rewrite (Hl y) by set_solver; done).
  rewrite !filter_cons, IH by (intros; apply Hl; set_solver).
  destruct (decide (deliverable send_ok ex m1 y = true)),
           (decide (deliverable send_ok ex m2 y = true)); congruence.
Qed.

Lemma broadcast_loop_spec (send_ok : string -> bool) (msg : WebSocketMessage)
    (ex : option string) (sessions : list string) :
  NoDup sessions ->
  forall m sent rem,
  let '(sent', rem', m') := broadcast_loop send_ok msg ex m sessions sent rem in
  let targets := filter (fun s => deliverable send_ok ex m s = true) sessions in
  sent' = (sent + length targets)%nat /\
  outbox m' = outbox m ++ map (fun s => (s, msg)) targets /\
  (forall x, active_connections m' !! x =
     if decide (x ∈ sessions /\ is_excluded ex x = false /\ send_ok x = false)
     then None else active_connections m !! x) /\
  (forall x, x ∈ rem' -> x ∈ rem \/
     (x ∈ sessions /\ is_excluded ex x = false /\
      (active_connections m !! x = None \/ send_ok x = false))).
Proof.
  induction 1 as [|s rest Hs Hnd IH]; intros m sent rem; simpl.
  - split; [lia|]. rewrite app_nil_r. split; [done|]. split; [|by left].
    intros x. done.
  - destruct (is_excluded ex s) eqn:Hex.
    + rewrite filter_cons_False by (unfold deliverable; rewrite Hex; simpl; congruence).
      pose proof (IH m sent rem) as IHm.
      destruct (broadcast_loop _ _ _ m rest sent rem) as [[sent' rem'] m'].
      destruct IHm as (H1 & H2 & H3 & H4). split; [done|]. split; [done|]. split.
      * intros x. rewrite H3. destruct (decide (x = s)) as [->|Hne].
        -- rewrite !decide_False; [done| |]; intros (?&?&?); [congruence|done].
        -- repeat case_decide; try done; exfalso; rewrite elem_of_cons in *; naive_solver.
      * intros x Hx. destruct (H4 x Hx) as [|(? & ? & ?)]; [by left|].
        right. split; [set_solver|done].
    + unfold send_personal_message.
      destruct (active_connections m !! s) as [ws|] eqn:Ha.
      * destruct (send_ok s) eqn:Hok.
        -- rewrite filter_cons_True
             by (unfold deliverable; rewrite Hex, Ha, Hok; done).
           set (m1 := mkManager _ _ _ _).
           pose proof (IH m1 (S sent) rem) as IHm.
           destruct (broadcast_loop _ _ _ m1 rest (S sent) rem) as [[sent' rem'] m'].
           destruct IHm as (H1 & H2 & H3 & H4).
           rewrite (deliverable_ext send_ok ex m1 m rest) in H1, H2 by done.
           split; [simpl; lia|]. split; [rewrite H2; simpl; by rewrite <- app_assoc|].
           split.
           ++ intros x. rewrite H3. simpl. destruct (decide (x = s)) as [->|Hne].
              ** rewrite !decide_False; [done| |]; intros (?&?&?); congruence.
              ** repeat case_decide; try done; exfalso; rewrite elem_of_cons in *;
                   naive_solver.
           ++ intros x Hx. destruct (H4 x Hx) as [|(? & ? & ?)]; [by left|].
              right. split; [set_solver|done].
        -- rewrite filter_cons_False
             by (unfold deliverable; rewrite Hex, Ha, Hok; simpl; congruence).
           set (m1 := disconnect m s).
           pose proof (IH m1 sent (rem ++ [s])) as IHm.
           destruct (broadcast_loop _ _ _ m1 rest sent _) as [[sent' rem'] m'].
           destruct IHm as (H1 & H2 & H3 & H4).
           rewrite (deliverable_ext send_ok ex m1 m rest) in H1, H2
             by (intros x Hx; subst m1; rewrite disconnect_active;
                 rewrite decide_False; [done|]; intros ->; contradiction).
           split; [done|]. split; [rewrite H2; subst m1; by rewrite disconnect_outbox|].
           split.
           ++ intros x. rewrite H3. subst m1. rewrite disconnect_active.
              destruct (decide (x = s)) as [->|Hne].
              ** destruct (decide (s ∈ s :: rest /\ _)) as [_|Hn];
                   [|exfalso; apply Hn; split; [set_solver|done]].
                 repeat case_decide; congruence.
              ** repeat case_decide; try done; exfalso; rewrite elem_of_cons in *;
                   naive_solver.
           ++ intros x Hx. destruct (H4 x Hx) as [Hr|(Hx' & He' & Hc)].
              ** apply elem_of_app in Hr as [Hr|Hr]; [by left|].
                 right. apply list_elem_of_singleton in Hr as ->.
                 split; [set_solver|]. split; [done|by right].
              ** right. split; [set_solver|]. split; [done|].
                 destruct (decide (x = s)) as [->|Hne]; [by right|].
                 subst m1. rewrite disconnect_active, decide_False in Hc by done. done.
      * rewrite filter_cons_False by (unfold deliverable; rewrite Hex, Ha; simpl; congruence).
        pose proof (IH m sent (rem ++ [s])) as IHm.
        destruct (broadcast_loop _ _ _ m rest sent _) as [[sent' rem'] m'].
        destruct IHm as (H1 & H2 & H3 & H4). split; [done|]. split; [done|]. split.
        -- intros x. rewrite H3. destruct (decide (x = s)) as [->|Hne].
           ++ rewrite Ha. by destruct (decide _), (decide _).
           ++ repeat case_decide; try done; exfalso; rewrite elem_of_cons in *; naive_solver.
        -- intros x Hx. destruct (H4 x Hx) as [Hr|(Hx' & He' & Hc)].
           ++ apply elem_of_app in Hr as [Hr|Hr]; [by left|].
              right. apply list_elem_of_singleton in Hr as ->.
              split; [set_solver|]. split; [done|by left].
           ++ right. split; [set_solver|]. by split.
Qed.


Lemma foldl_disconnect_noop (l : list string) (m : Manager) :
  (forall x, x ∈ l -> active_connections m !! x = None) -> foldl disconnect m l = m.
Proof.
  revert m. induction l as [|y l IH]; intros m Hl; simpl; [done|].
  rewrite disconnect_absent by (apply Hl; set_solver). apply IH. set_solver.
Qed.

(* The whole broadcast over a duplicate-free snapshot: the cleanup pass
   after the loop changes nothing. *)
Lemma broadcast_snapshot_spec (send_ok : string -> bool) (msg : WebSocketMessage)
    (ex : option string) (sessions : list string) (m : Manager) :
  NoDup sessions ->
  let '(sent, rem, m') := broadcast_loop send_ok msg ex m sessions 0 [] in
  let targets := filter (fun s => deliverable send_ok ex m s = true) sessions in
  sent = length targets /\ foldl disconnect m' rem = m' /\
  outbox m' = outbox m ++ map (fun s => (s, msg)) targets /\
  (forall x, active_connections m' !! x =
     if decide (x ∈ sessions /\ is_excluded ex x = false /\ send_ok x = false)
     then None else active_connections m !! x).
Proof.
  intros Hnd. pose proof (broadcast_loop_spec send_ok msg ex sessions Hnd m 0 []) as H.
  destruct (broadcast_loop _ _ _ m sessions 0 []) as [[sent rem] m'].
  destruct H as (H1 & H2 & H3 & H4). split; [done|]. split; [|done].
  apply foldl_disconnect_noop. intros x Hx.
  destruct (H4 x Hx) as [Hr|(Hxs & He & [Hc|Hc])]; [set_solver| |];
    rewrite H3; [by case_decide|by rewrite decide_True].
Qed.


Lemma map_fmap_eq {A B} (f : A -> B) (l : list A) : map f l = f <$> l.
Proof. induction l as [|x l IH]; simpl; [done|]. by rewrite IH. Qed.

(** broadcast_to_game on a game without a group returns 0 and changes
    nothing. Otherwise it sends the message, in the set's iteration order,
    to every member of the group that is not excluded, is connected and
    whose send succeeds, and returns how many those are; exactly the
    members that are not excluded and whose send fails are disconnected. *)
Theorem broadcast_to_game_result (order : gset string -> list string)
    (Horder : forall g, order g ≡ₚ elements g) (send_ok : string -> bool)
    (m : Manager) (msg : WebSocketMessage) (game_id : string)
    (exclude_session : option string) :
  match game_sessions m !! game_id with
  | None => broadcast_to_game order send_ok m msg game_id exclude_session = (0%nat, m)
  | Some group =>
      let targets := filter (fun s => deliverable send_ok exclude_session m s = true)
                            (order group) in
      let r := broadcast_to_game order send_ok m msg game_id exclude_session in
      r.1 = length targets /\
      outbox r.2 = outbox m ++ map (fun s => (s, msg)) targets /\
      (forall x, active_connections r.2 !! x =
         if decide (x ∈ group /\ is_excluded exclude_session x = false /\
                    send_ok x = false)
         then None else active_connections m !! x)
  end.
Proof.
  unfold broadcast_to_game. destruct (game_sessions m !! game_id) as [group|]; [|done].
  assert (Hnd : NoDup (order group)) by (rewrite Horder; apply NoDup_elements).
  pose proof (broadcast_snapshot_spec send_ok msg exclude_session _ m Hnd) as H.
  destruct (broadcast_loop _ _ _ m (order group) 0 []) as [[sent rem] m'].
  destruct H as (H1 & H2 & H3 & H4). simpl. rewrite H2.
  split; [done|]. split; [done|]. intros x. rewrite H4.
  apply decide_ext. rewrite Horder, elem_of_elements. done.
Qed.

Lemma broadcast_loop_no_exclusion (send_ok : string -> bool) (msg : WebSocketMessage)
    (sessions : list string) :
  forall m sent rem,
  broadcast_loop send_ok msg (Some ""%string) m sessions sent rem =
  broadcast_loop send_ok msg None m sessions sent rem.
Proof.
  induction sessions as [|s rest IH]; intros m sent rem; simpl; [done|].
  destruct (send_personal_message send_ok m msg s) as [[] m']; apply IH.
Qed.

(** broadcast_to_game never sends to a non-empty exclude_session; an empty
    exclude_session, being falsy, excludes nothing: the call behaves exactly
    as without one. *)
Theorem broadcast_to_game_exclusion (order : gset string -> list string)
    (Horder : forall g, order g ≡ₚ elements g) (send_ok : string -> bool)
    (m : Manager) (msg : WebSocketMessage) (game_id e : string) :
  (e <> ""%string ->
   let r := broadcast_to_game order send_ok m msg game_id (Some e) in
   exists sent, outbox r.2 = outbox m ++ sent /\ (e, msg) ∉ sent) /\
  broadcast_to_game order send_ok m msg game_id (Some ""%string) =
  broadcast_to_game order send_ok m msg game_id None.
Proof.
  split.
  - intros He. unfold broadcast_to_game.
    destruct (game_sessions m !! game_id) as [group|] eqn:Hg.
    + assert (Hnd : NoDup (order group)) by (rewrite Horder; apply NoDup_elements).
      pose proof (broadcast_snapshot_spec send_ok msg (Some e) _ m Hnd) as H.
      destruct (broadcast_loop _ _ _ m (order group) 0 []) as [[sent rem] m'].
      destruct H as (H1 & H2 & H3 & H4). simpl. rewrite H2.
      eexists. split; [exact H3|].
      rewrite map_fmap_eq, list_elem_of_fmap.
      intros (y & [= <-] & Hy). apply list_elem_of_filter in Hy as [Hy _].
      unfold deliverable, is_excluded in Hy.
      rewrite bool_decide_true in Hy by done. rewrite bool_decide_true in Hy by done.
      discriminate.
    + exists []. simpl. rewrite app_nil_r. split; [done|]. set_solver.
  - unfold broadcast_to_game. destruct (game_sessions m !! game_id); [|done].
    by rewrite broadcast_loop_no_exclusion.
Qed.

Lemma deliverable_connected (send_ok : string -> bool) (m : Manager) (l : list string) :
  (forall x, x ∈ l -> is_Some (active_connections m !! x)) ->
  filter (fun s => deliverable send_ok None m s = true) l =
  filter (fun s => send_ok s = true) l.
Proof.
  induction l as [|y l IH]; intros Hl; [done|].
  assert (Hy : deliverable send_ok None m y = send_ok y).
  { unfold deliverable. simpl. rewrite bool_decide_true; [done|]. apply Hl. set_solver. }
  rewrite !filter_cons, Hy, IH by (intros x Hx; apply Hl; set_solver). done.
Qed.

(** broadcast_to_all sends the message, in the dict's order, to every
    connected session whose send succeeds and returns how many those are;
    afterwards the connected sessions are exactly those whose send
    succeeded. *)
Theorem broadcast_to_all_result (keys : gmap string nat -> list string)
    (Hkeys : forall a, keys a ≡ₚ (map_to_list a).*1) (send_ok : string -> bool)
    (m : Manager) (msg : WebSocketMessage) :
  let delivered := filter (fun s => send_ok s = true) (keys (active_connections m)) in
  let r := broadcast_to_all keys send_ok m msg in
  r.1 = length delivered /\
  outbox r.2 = outbox m ++ map (fun s => (s, msg)) delivered /\
  (forall x, active_connections r.2 !! x =
     if send_ok x then active_connections m !! x else None).
Proof.
  intros delivered r. subst r delivered. unfold broadcast_to_all.
  assert (Hnd : NoDup (keys (active_connections m)))
    by (rewrite Hkeys; apply NoDup_fst_map_to_list).
  assert (Hin : forall x, x ∈ keys (active_connections m) <->
                          is_Some (active_connections m !! x)).
  { intros x. rewrite Hkeys, list_elem_of_fmap. split.
    - intros ([y ws] & -> & Hy). apply elem_of_map_to_list in Hy. by exists ws.
    - intros [ws Hws]. exists (x, ws). split; [done|]. by apply elem_of_map_to_list. }
  pose proof (broadcast_snapshot_spec send_ok msg None _ m Hnd) as H.
  destruct (broadcast_loop _ _ _ m _ 0 []) as [[sent rem] m'].
  destruct H as (H1 & H2 & H3 & H4).
  assert (Hf : filter (fun s => deliverable send_ok None m s = true)
                      (keys (active_connections m)) =
               filter (fun s => send_ok s = true) (keys (active_connections m))).
  { apply deliverable_connected. intros x Hx. by apply Hin. }
  simpl. rewrite H2, <- Hf. split; [done|]. split; [done|].
  intros x. rewrite H4. simpl.
  destruct (send_ok x) eqn:Hok.
  - rewrite decide_False; [done|]. intros (_ & _ & ?). discriminate.
  - destruct (decide (x ∈ _ /\ _)) as [_|Hn]; [done|].
    destruct (active_connections m !! x) eqn:Ha; [|done].
    exfalso. apply Hn. split; [apply Hin; by eexists|done].
Qed.


Lemma disconnect_info (m : Manager) (s x : string) :
  session_info (disconnect m s) !! x =
  if decide (is_Some (active_connections m !! s) /\ x = s) then None
  else session_info m !! x.
Proof.
  unfold disconnect. case_decide as Hd.
  - destruct Hd as [[a Ha] ->]. rewrite Ha. cbn [session_info].
    by rewrite lookup_delete_eq.
  - destruct (active_connections m !! s) eqn:Hs; [|done]. cbn [session_info].
    rewrite lookup_delete_ne; [done|]. intros ->. apply Hd. split; [by eexists|done].
Qed.

Lemma disconnect_consistent (m : Manager) (s : string) :
  reg_consistent m -> reg_consistent (disconnect m s).
Proof.
  intros Hc x. rewrite disconnect_info, disconnect_active.
  destruct (decide (x = s)) as [->|Hne].
  - destruct (decide (is_Some (active_connections m !! s) /\ s = s)) as [_|Hn].
    + split; intros [? ?]; discriminate.
    + assert (Hs : active_connections m !! s = None)
        by (destruct (active_connections m !! s); [exfalso; apply Hn; by split|done]).
      split; [intros [? ?]; discriminate|]. intros H. apply Hc in H. rewrite Hs in H. done.
  - rewrite decide_False by naive_solver. apply Hc.
Qed.

Lemma foldl_disconnect_consistent (l : list string) (m : Manager) :
  reg_consistent m -> reg_consistent (foldl disconnect m l).
Proof.
  revert m. induction l as [|y l IH]; intros m Hc; simpl; [done|].
  apply IH, disconnect_consistent, Hc.
Qed.

Lemma send_io_consistent (send_ok : string -> bool) (m : Manager)
    (msg : WebSocketMessage) (s : string) :
  reg_consistent m -> reg_consistent (send_personal_message send_ok m msg s).2.
Proof.
  intros Hc. unfold send_personal_message.
  destruct (active_connections m !! s); [|done].
  destruct (send_ok s); [done|]. by apply disconnect_consistent.
Qed.

Lemma broadcast_loop_consistent (send_ok : string -> bool) (msg : WebSocketMessage)
    (ex : option string) (sessions : list string) :
  forall m sent rem, reg_consistent m ->
  reg_consistent (broadcast_loop send_ok msg ex m sessions sent rem).2.
Proof.
  induction sessions as [|s rest IH]; intros m sent rem Hc; simpl; [done|].
  destruct (is_excluded ex s); [by apply IH|].
  pose proof (send_io_consistent send_ok m msg s Hc) as Hc'.
  destruct (send_personal_message send_ok m msg s) as [[] m']; by apply IH.
Qed.

(** Every operation of the connection manager keeps active_connections and
    session_info on the same set of session ids: connect, disconnect,
    send_personal_message (whether the send succeeds or fails), the two
    broadcasts and cleanup_inactive_sessions. *)
Theorem registry_consistent_preserved (m : Manager) :
  reg_consistent m ->
  (forall accept_ok ws s g ci now m',
     connect m accept_ok ws s g ci now = inr m' -> reg_consistent m') /\
  (forall s, reg_consistent (disconnect m s)) /\
  (forall send_ok msg s, reg_consistent (send_personal_message send_ok m msg s).2) /\
  (forall order send_ok msg g ex,
     reg_consistent (broadcast_to_game order send_ok m msg g ex).2) /\
  (forall keys send_ok msg, reg_consistent (broadcast_to_all keys send_ok m msg).2) /\
  (forall now timeout, reg_consistent (cleanup_inactive_sessions m now timeout).2).
Proof.
  intros Hc. split; [|split; [|split; [|split; [|split]]]].
  - intros accept_ok ws s g ci now m' H. unfold connect in H.
    destruct accept_ok; [|discriminate]. injection H as <-. intros x. simpl.
    destruct (decide (x = s)) as [->|Hne].
    + rewrite !lookup_insert_eq. split; intros _; by eexists.
    + rewrite !lookup_insert_ne by done. apply Hc.
  - intros s. by apply disconnect_consistent.
  - intros. by apply send_io_consistent.
  - intros order send_ok msg g ex. unfold broadcast_to_game.
    destruct (game_sessions m !! g) as [group|]; [|done].
    pose proof (broadcast_loop_consistent send_ok msg ex (order group) m 0 [] Hc) as H.
    destruct (broadcast_loop _ _ _ _ _ _ _) as [[? ?] ?]. by apply foldl_disconnect_consistent.
  - intros keys send_ok msg. unfold broadcast_to_all.
    pose proof (broadcast_loop_consistent send_ok msg None
                  (keys (active_connections m)) m 0 [] Hc) as H.
    destruct (broadcast_loop _ _ _ _ _ _ _) as [[? ?] ?]. by apply foldl_disconnect_consistent.
  - intros now timeout. by apply foldl_disconnect_consistent.
Qed.

Lemma foldl_disconnect_info (l : list string) :
  NoDup l -> forall m, reg_consistent m ->
  (forall x, x ∈ l -> is_Some (session_info m !! x)) ->
  forall x, session_info (foldl disconnect m l) !! x =
            if decide (x ∈ l) then None else session_info m !! x.
Proof.
  induction 1 as [|y l Hy Hnd IH]; intros m Hc Hl x; simpl; [done|].
  assert (Hact : is_Some (active_connections m !! y)) by (apply Hc, Hl; set_solver).
  rewrite IH.
  - rewrite disconnect_info. destruct (decide (x = y)) as [->|Hne].
    + rewrite decide_False by done. rewrite decide_True by done.
      rewrite decide_True by set_solver. done.
    + rewrite (decide_False (P := _ /\ x = y)) by naive_solver.
      apply decide_ext. set_solver.
  - by apply disconnect_consistent.
  - intros z Hz. rewrite disconnect_info, decide_False by (intros [_ ->]; contradiction).
    apply Hl. set_solver.
Qed.


(** cleanup_inactive_sessions(timeout) on a consistent registry removes
    exactly the sessions connected more than timeout seconds ago: the
    remaining session info is that of the other sessions, unchanged, and
    the returned count is the number of sessions removed. *)
Theorem cleanup_removes_exactly_expired (m : Manager) (now timeout : Z) :
  reg_consistent m ->
  let r := cleanup_inactive_sessions m now timeout in
  session_info r.2 = filter (fun kv => ~ expired now timeout kv) (session_info m) /\
  r.1 = size (filter (expired now timeout) (session_info m)) /\
  reg_consistent r.2.
Proof.
  intros Hc. unfold cleanup_inactive_sessions, inactive_sessions. simpl.
  set (l := filter (fun kv => now - si_connected_at kv.2 > timeout)
                   (map_to_list (session_info m))).
  assert (Hnd : NoDup (map fst l)).
  { rewrite map_fmap_eq. eapply sublist_NoDup; [apply (NoDup_fst_map_to_list (session_info m))|].
    apply fmap_sublist, sublist_filter. }
  assert (Hin : forall x, x ∈ map fst l <->
            exists i, session_info m !! x = Some i /\ now - si_connected_at i > timeout).
  { intros x. rewrite map_fmap_eq, list_elem_of_fmap. split.
    - intros ([y i] & -> & Hy). apply list_elem_of_filter in Hy as [Hp Hy].
      apply elem_of_map_to_list in Hy. by exists i.
    - intros (i & Hi & Hp). exists (x, i). split; [done|].
      apply list_elem_of_filter. split; [done|]. by apply elem_of_map_to_list. }
  split; [|split].
  - apply map_eq. intros x. rewrite (foldl_disconnect_info _ Hnd m Hc).
    2:{ intros y Hy. apply Hin in Hy as (i & Hi & _). by eexists. }
    rewrite map_lookup_filter. unfold expired. simpl.
    destruct (decide (x ∈ map fst l)) as [Hx|Hx].
    + apply Hin in Hx as (i & -> & Hp). simpl. by rewrite option_guard_False by lia.
    + destruct (session_info m !! x) as [i|] eqn:Hi; [|done]. simpl.
      rewrite option_guard_True; [done|]. intros Hp. apply Hx, Hin. by exists i.
  - rewrite length_map, <- (map_size_list_to_map l).
    + f_equal. subst l. by rewrite map_filter_alt.
    + rewrite <- map_fmap_eq. done.
  - by apply foldl_disconnect_consistent.
Qed.

(** A session whose game id is the empty string is never dropped from a
    game group: disconnect removes it from active_connections and
    session_info but leaves game_sessions as it was, so an id listed under
    game_sessions[""] stays listed there. *)
Theorem disconnect_empty_game_keeps_group (m : Manager) (s : string) (i : SessionInfo) :
  reg_consistent m ->
  session_info m !! s = Some i -> si_game_id i = ""%string ->
  game_sessions (disconnect m s) = game_sessions m /\
  active_connections (disconnect m s) !! s = None /\
  session_info (disconnect m s) !! s = None.
Proof.
  intros Hc Hi Hg. unfold disconnect.
  destruct (active_connections m !! s) eqn:Ha.
  - cbn [game_sessions active_connections session_info]. rewrite Hi. simpl. rewrite Hg.
    rewrite bool_decide_false by (intros Hne; by apply Hne).
    split; [done|]. by rewrite !lookup_delete_eq.
  - exfalso. assert (H : is_Some (session_info m !! s)) by (rewrite Hi; by eexists).
    apply Hc in H. rewrite Ha in H. by destruct H.
Qed.

(** A session id reused while its first websocket is still open: the
    second connect overwrites the registration, and the first
    websocket_endpoint's final disconnect(session_id) then removes the
    second connection too. In the end the id is in no connection map, it is
    gone from its second game's group, and when the two game ids differ it
    is still listed in the first game's group. *)
Theorem reused_session_id_first_disconnect (m m1 m2 : Manager) (ws1 ws2 : nat)
    (s g1 g2 : string) (ci1 ci2 : list (string * string)) (t1 t2 : Z) :
  connect m true ws1 s g1 ci1 t1 = inr m1 ->
  connect m1 true ws2 s g2 ci2 t2 = inr m2 ->
  let m3 := disconnect m2 s in
  active_connections m3 !! s = None /\
  session_info m3 !! s = None /\
  (g2 <> ""%string -> s ∉ get_game_sessions m3 g2) /\
  (g1 <> g2 -> s ∈ get_game_sessions m3 g1).
Proof.
  intros H1 H2 m3. unfold connect in H1, H2. simpl in H1, H2.
  injection H1 as <-. injection H2 as <-. subst m3.
  unfold disconnect, get_game_sessions. cbn [active_connections session_info game_sessions].
  rewrite lookup_insert_eq. cbn [active_connections session_info game_sessions].
  rewrite lookup_insert_eq. simpl.
  split; [by rewrite lookup_delete_eq|]. split; [by rewrite lookup_delete_eq|].
  split.
  - intros Hg2. rewrite bool_decide_true by done. rewrite lookup_insert_eq.
    case_bool_decide as He.
    + rewrite lookup_delete_eq. simpl. set_solver.
    + rewrite lookup_insert_eq. simpl. set_solver.
  - intros Hne. unfold drop_from_game.
    assert (Hin : s ∈ default ∅ (<[g2:=default ∅ (<[g1:=default ∅ (game_sessions m !! g1) ∪ {[s]}]>
                     (game_sessions m) !! g2) ∪ {[s]}]>
                     (<[g1:=default ∅ (game_sessions m !! g1) ∪ {[s]}]> (game_sessions m)) !! g1)).
    { rewrite lookup_insert_ne by done. rewrite lookup_insert_eq. simpl. set_solver. }
    case_bool_decide; [|exact Hin].
    rewrite lookup_insert_eq. case_bool_decide.
    + rewrite lookup_delete_ne by done. exact Hin.
    + rewrite lookup_insert_ne by done. exact Hin.
Qed.


Definition demo_manager : Manager :=
  mkManager (<["a" := 1%nat]> (<["b" := 2%nat]> ∅))
            (<["g" := {["a"; "b"]}]> ∅)
            (<["a" := mkInfo "g" [] 0]> (<["b" := mkInfo "g" [] 5]> ∅)) [].

Definition demo_send_ok (s : string) : bool := bool_decide (s = "a")%string.

Definition demo_msg : WebSocketMessage := mkMsg STATUS None.

Lemma reg_consistent_dom (m : Manager) :
  dom (active_connections m) = dom (session_info m) -> reg_consistent m.
Proof. intros Hd s. rewrite <- !elem_of_dom, Hd. done. Qed.

Lemma broadcast_to_game_result_witness :
  (forall g : gset string, elements g ≡ₚ elements g) /\
  match game_sessions demo_manager !! "g"%string with
  | None => broadcast_to_game elements demo_send_ok demo_manager demo_msg "g" None
            = (0%nat, demo_manager)
  | Some group =>
      let targets := filter (fun s => deliverable demo_send_ok None demo_manager s = true)
                            (elements group) in
      let r := broadcast_to_game elements demo_send_ok demo_manager demo_msg "g" None in
      r.1 = length targets /\
      outbox r.2 = outbox demo_manager ++ map (fun s => (s, demo_msg)) targets /\
      (forall x, active_connections r.2 !! x =
         if decide (x ∈ group /\ is_excluded None x = false /\ demo_send_ok x = false)
         then None else active_connections demo_manager !! x)
  end.
Proof.
  split; [intros g; reflexivity|].
  exact (broadcast_to_game_result elements (fun g => reflexivity _)
           demo_send_ok demo_manager demo_msg "g" None).
Defined.

Lemma broadcast_to_game_exclusion_witness :
  (forall g : gset string, elements g ≡ₚ elements g) /\ ("a"%string <> ""%string) /\
  ((("a"%string <> ""%string) ->
    let r := broadcast_to_game elements demo_send_ok demo_manager demo_msg "g" (Some "a"%string) in
    exists sent, outbox r.2 = outbox demo_manager ++ sent /\ ("a"%string, demo_msg) ∉ sent) /\
   broadcast_to_game elements demo_send_ok demo_manager demo_msg "g" (Some ""%string) =
   broadcast_to_game elements demo_send_ok demo_manager demo_msg "g" None).
Proof.
  split; [intros g; reflexivity|]. split; [discriminate|].
  exact (broadcast_to_game_exclusion elements (fun g => reflexivity _)
           demo_send_ok demo_manager demo_msg "g" "a").
Defined.

Lemma broadcast_to_all_result_witness :
  (forall a : gmap string nat, (map_to_list a).*1 ≡ₚ (map_to_list a).*1) /\
  let keys := fun a : gmap string nat => (map_to_list a).*1 in
  let delivered := filter (fun s => demo_send_ok s = true) (keys (active_connections demo_manager)) in
  let r := broadcast_to_all keys demo_send_ok demo_manager demo_msg in
  r.1 = length delivered /\
  outbox r.2 = outbox demo_manager ++ map (fun s => (s, demo_msg)) delivered /\
  (forall x, active_connections r.2 !! x =
     if demo_send_ok x then active_connections demo_manager !! x else None).
Proof.
  split; [intros a; reflexivity|].
  exact (broadcast_to_all_result (fun a => (map_to_list a).*1) (fun a => reflexivity _)
           demo_send_ok demo_manager demo_msg).
Defined.

Lemma registry_consistent_preserved_witness :
  reg_consistent demo_manager /\
  (forall now timeout, reg_consistent (cleanup_inactive_sessions demo_manager now timeout).2).
Proof.
  assert (Hc : reg_consistent demo_manager) by (apply reg_consistent_dom; vm_compute; reflexivity).
  split; [exact Hc|].
  exact (proj2 (proj2 (proj2 (proj2 (proj2
           (registry_consistent_preserved demo_manager Hc)))))).
Defined.

Lemma cleanup_removes_exactly_expired_witness :
  reg_consistent demo_manager /\
  let r := cleanup_inactive_sessions demo_manager 10 7 in
  session_info r.2 = filter (fun kv => ~ expired 10 7 kv) (session_info demo_manager) /\
  r.1 = size (filter (expired 10 7) (session_info demo_manager)) /\
  reg_consistent r.2.
Proof.
  assert (Hc : reg_consistent demo_manager) by (apply reg_consistent_dom; vm_compute; reflexivity).
  split; [exact Hc|].
  exact (cleanup_removes_exactly_expired demo_manager 10 7 Hc).
Defined.

Definition demo_empty_game : Manager :=
  mkManager (<["c" := 3%nat]> ∅) (<["" := {["c"]}]> ∅)
            (<["c" := mkInfo "" [] 0]> ∅) [].

Lemma disconnect_empty_game_keeps_group_witness :
  reg_consistent demo_empty_game /\
  session_info demo_empty_game !! "c"%string = Some (mkInfo "" [] 0) /\
  si_game_id (mkInfo "" [] 0) = ""%string /\
  game_sessions (disconnect demo_empty_game "c") = game_sessions demo_empty_game /\
  active_connections (disconnect demo_empty_game "c") !! "c"%string = None /\
  session_info (disconnect demo_empty_game "c") !! "c"%string = None.
Proof.
  assert (Hc : reg_consistent demo_empty_game)
    by (apply reg_consistent_dom; vm_compute; reflexivity).
  assert (Hi : session_info demo_empty_game !! "c"%string = Some (mkInfo "" [] 0))
    by reflexivity.
  split; [exact Hc|]. split; [exact Hi|]. split; [reflexivity|].
  exact (disconnect_empty_game_keeps_group demo_empty_game "c" _ Hc Hi eq_refl).
Defined.

Lemma reused_session_id_first_disconnect_witness :
  exists m1 m2,
  connect empty_manager true 1 "s" "g1" [] 0 = inr m1 /\
  connect m1 true 2 "s" "g2" [] 3 = inr m2 /\
  let m3 := disconnect m2 "s" in
  active_connections m3 !! "s"%string = None /\
  session_info m3 !! "s"%string = None /\
  ("g2"%string <> ""%string -> "s"%string ∉ get_game_sessions m3 "g2") /\
  ("g1"%string <> "g2"%string -> "s"%string ∈ get_game_sessions m3 "g1").
Proof.
  eexists. eexists. split; [reflexivity|]. split; [reflexivity|].
  exact (reused_session_id_first_disconnect _ _ _ 1 2 "s" "g1" "g2" [] [] 0 3
           eq_refl eq_refl).
Defined.

End ManagerExtras.


Module MetricsFacts.
Import Metrics.
Local Open Scope Q_scope.

Definition count_success (calls : list (Q * bool * Q)) : Z :=
  Z.of_nat (length (filter (fun c => c.1.2 = true) calls)).

Lemma run_metrics_counts (calls : list (Q * bool * Q)) :
  forall pm, total_requests (run_metrics pm calls) = (total_requests pm + Z.of_nat (length calls))%Z /\
  successful_requests (run_metrics pm calls) = (successful_requests pm + count_success calls)%Z /\
  start_time (run_metrics pm calls) = start_time pm.
Proof.
  unfold count_success.
  induction calls as [|[[rt ok] t] calls IH]; intros pm; simpl;
    [split; [lia|split; [lia|done]]|].
  destruct (IH (update_metrics pm rt ok t)) as (H1 & H2 & H3).
  rewrite H1, H2, H3. simpl. split; [lia|split; [|done]]. destruct ok.
  - rewrite filter_cons_True by done. simpl length. lia.
  - rewrite filter_cons_False by done. lia.
Qed.

Lemma learning_rate_bounds (s t : Z) :
  (0 <= s)%Z -> (s <= t)%Z ->
  0 <= inject_Z s / inject_Z (Z.max 1 t) <= 1.
Proof.
  intros Hs Hst.
  assert (Hpos : 0 < inject_Z (Z.max 1 t)) by (unfold Qlt; simpl; lia).
  split.
  - apply Qle_shift_div_l; [exact Hpos|]. rewrite Qmult_0_l.
    unfold Qle; simpl; lia.
  - apply Qle_shift_div_r; [exact Hpos|]. rewrite Qmult_1_l.
    unfold Qle; simpl; lia.
Qed.

(** Run from its initial state, the performance metrics count every call
    of _update_metrics in total_requests and the successful ones in
    successful_requests, so the learning rate reported by
    get_realtime_stats lies in [0, 1]. *)
Theorem update_metrics_run (m : WSManager.Manager) (t0 : Q) (calls : list (Q * bool * Q)) :
  let pm := run_metrics (initial_metrics t0) calls in
  total_requests pm = Z.of_nat (length calls) /\
  successful_requests pm = count_success calls /\
  0 <= rs_learning_rate (get_realtime_stats m pm) <= 1.
Proof.
  intros pm. destruct (run_metrics_counts calls (initial_metrics t0)) as (H1 & H2 & _).
  simpl in H1, H2. fold pm in H1, H2.
  split; [exact H1|]. split; [exact H2|].
  simpl. rewrite H1, H2. apply learning_rate_bounds.
  - unfold count_success. lia.
  - unfold count_success. pose proof (length_filter (fun c => c.1.2 = true) calls). lia.
Qed.

End MetricsFacts.

Module FaissUpdateFacts.
Import VectorStore FaissUpdates.

Lemma update_first_shape (cid : Z) (s : Q) (meta : list MetaEntry) :
  (Forall (fun e => context_id e <> cid) meta /\ update_first cid s meta = meta) \/
  (exists pre e post, meta = pre ++ e :: post /\
     Forall (fun e' => context_id e' <> cid) pre /\ context_id e = cid /\
     update_first cid s meta = pre ++ set_effectiveness e s :: post).
Proof.
  induction meta as [|e rest IH]; simpl; [left; done|].
  destruct (Z.eqb_spec (context_id e) cid) as [Heq|Hne].
  - right. exists [], e, rest. done.
  - destruct IH as [[Hall ->] | (pre & e' & post & -> & Hpre & He' & ->)].
    + left. split; [by constructor|done].
    + right. exists (e :: pre), e', post. split; [done|]. split; [by constructor|done].
Qed.

(** update_effectiveness_score on a game without metadata changes nothing.
    Otherwise it changes only that game's metadata, and there only the
    first entry with the given context id, whose effectiveness score
    becomes the new score; later entries with the same context id keep
    their score, and with no such entry nothing changes. The vectors, the
    dimension and every other game are left as they were. *)
Theorem update_effectiveness_first_match (svc : Service) (game_id : string) (cid : Z)
    (new_score : Q) :
  match indexes svc !! game_id with
  | None => update_effectiveness_score svc game_id cid new_score = svc
  | Some st =>
      let svc' := update_effectiveness_score svc game_id cid new_score in
      entry_counts svc' = entry_counts svc /\ rebuilt svc' = rebuilt svc /\
      (forall g, g <> game_id -> indexes svc' !! g = indexes svc !! g) /\
      ((Forall (fun e => context_id e <> cid) (metadata st) /\
        indexes svc' !! game_id = Some st) \/
       (exists pre e post, metadata st = pre ++ e :: post /\
          Forall (fun e' => context_id e' <> cid) pre /\ context_id e = cid /\
          indexes svc' !! game_id =
            Some (mkStore (dimension st) (vectors st)
                    (pre ++ set_effectiveness e new_score :: post))))
  end.
Proof.
  unfold update_effectiveness_score.
  destruct (indexes svc !! game_id) as [st|] eqn:Hst; [|done].
  unfold set_metadata. cbn [entry_counts rebuilt indexes].
  split; [done|]. split; [done|]. split.
  - intros g Hg. by rewrite lookup_insert_ne by congruence.
  - rewrite lookup_insert_eq.
    destruct (update_first_shape cid new_score (metadata st))
      as [[Hall ->] | (pre & e & post & Hm & Hpre & He & ->)].
    + left. split; [done|]. by destruct st.
    + right. exists pre, e, post. done.
Qed.

Lemma py_dict_lookup (updates : list (Z * Q)) :
  forall (d : gmap Z Q) k,
  foldl (fun d kv => <[kv.1 := kv.2]> d) d updates !! k =
  match last (filter (fun kv => kv.1 = k) updates) with
  | Some kv => Some kv.2
  | None => d !! k
  end.
Proof.
  induction updates as [|[k' v] rest IH] using rev_ind; intros d k; simpl; [done|].
  rewrite foldl_app. simpl. rewrite filter_app. simpl.
  destruct (decide (k' = k)) as [->|Hne].
  - rewrite filter_cons_True by done. simpl. rewrite last_app. simpl.
    by rewrite lookup_insert_eq.
  - rewrite filter_cons_False by done. rewrite app_nil_r.
    rewrite lookup_insert_ne by done. apply IH.
Qed.

(** batch_update_effectiveness_scores follows dict(updates): every entry of
    the game's metadata whose context id occurs in the updates gets the
    score of the last pair with that context id (all entries sharing the
    id are updated), and every other entry is left as it is; a game
    without metadata is left unchanged. *)
Theorem batch_update_last_wins (svc : Service) (game_id : string)
    (updates : list (Z * Q)) :
  match indexes svc !! game_id with
  | None => batch_update_effectiveness_scores svc game_id updates = svc
  | Some st =>
      exists meta',
      indexes (batch_update_effectiveness_scores svc game_id updates) !! game_id =
        Some (mkStore (dimension st) (vectors st) meta') /\
      length meta' = length (metadata st) /\
      forall i e, metadata st !! i = Some e ->
        meta' !! i =
          Some (match last (filter (fun kv => kv.1 = context_id e) updates) with
                | Some kv => set_effectiveness e kv.2
                | None => e
                end)
  end.
Proof.
  unfold batch_update_effectiveness_scores.
  destruct (indexes svc !! game_id) as [st|] eqn:Hst; [|done].
  eexists. unfold set_metadata. cbn [indexes]. rewrite lookup_insert_eq.
  split; [reflexivity|]. split; [by rewrite length_map|].
  intros i e Hi. rewrite list_lookup_fmap, Hi. simpl. unfold py_dict.
  rewrite py_dict_lookup, lookup_empty.
  by destruct (last (filter (fun kv => kv.1 = context_id e) updates)).
Qed.

End FaissUpdateFacts.

Module RemovalFacts.
Import VectorStore.

Definition kept_pair (min_eff : Q) (ve : vec * MetaEntry) : Prop :=
  Qle_bool min_eff (effectiveness_score ve.2) = true /\ length ve.1 = embedding_dimension.

#[global] Instance kept_pair_dec (min_eff : Q) (ve : vec * MetaEntry) :
  Decision (kept_pair min_eff ve).
Proof. unfold kept_pair. apply _. Defined.

Lemma reconstruct_partition (min_eff : Q) (old_vecs : list vec) (old_meta : list MetaEntry)
    (vs : list vec) (ms : list MetaEntry) :
  length vs = length ms ->
  forall pv pm, old_vecs = pv ++ vs -> old_meta = pm ++ ms -> length pv = length pm ->
  forall new_vecs new_meta,
  let K := filter (kept_pair min_eff) (zip vs ms) in
  reconstruct_kept old_vecs old_meta (partition_positions min_eff ms (length pm)).1
                   new_vecs new_meta =
  (new_vecs ++ K.*1,
   new_meta ++ imap (fun j e => set_index_position e (length new_vecs + j)) K.*2).
Proof.
  revert vs. induction ms as [|e ms IH]; intros vs Hlen pv pm Hv Hm Hp nv nm K; subst K.
  - destruct vs; [|done]. simpl. by rewrite !app_nil_r.
  - destruct vs as [|v vs]; [done|]. simpl in Hlen.
    simpl. destruct (partition_positions min_eff ms (S (length pm))) as [keep rem] eqn:Hpart.
    pose proof (IH vs ltac:(lia) (pv ++ [v]) (pm ++ [e])) as IH'.
    rewrite !length_app in IH'. simpl in IH'.
    replace (length pm + 1)%nat with (S (length pm)) in IH' by lia.
    replace (length pv + 1)%nat with (S (length pv)) in IH' by lia.
    rewrite Hpart in IH'. simpl in IH'.
    assert (Hnv : nth_error old_vecs (length pm) = Some v).
    { subst. rewrite nth_error_app2 by lia. by rewrite <- Hp, Nat.sub_diag. }
    assert (Hnm : nth_error old_meta (length pm) = Some e).
    { subst. rewrite nth_error_app2 by lia. by rewrite Nat.sub_diag. }
    destruct (Qle_bool min_eff (effectiveness_score e)) eqn:He.
    + simpl. rewrite Hnv, Hnm. simpl.
      destruct (Nat.eqb (length v) embedding_dimension) eqn:Hd.
      2:{ rewrite filter_cons_False
            by (unfold kept_pair; simpl; intros [_ Hd']; apply Nat.eqb_neq in Hd; done).
          apply IH'; [subst; by rewrite <- app_assoc | subst; by rewrite <- app_assoc |
                      lia]. }
      rewrite filter_cons_True by (unfold kept_pair; split; [done|by apply Nat.eqb_eq]).
      rewrite (IH' ltac:(subst; by rewrite <- app_assoc)
                   ltac:(subst; by rewrite <- app_assoc) ltac:(lia)).
      simpl. rewrite <- !app_assoc. simpl. f_equal. f_equal.
      rewrite Nat.add_0_r. f_equal.
      apply imap_ext. intros j x _. simpl. f_equal. rewrite length_app. simpl. lia.
    + rewrite filter_cons_False by (unfold kept_pair; simpl; rewrite He; intros [? _]; done).
      apply IH'; [subst; by rewrite <- app_assoc | subst; by rewrite <- app_assoc |
                  lia].
Qed.

Lemma partition_removed_length (min_eff : Q) (ms : list MetaEntry) :
  forall i, length (partition_positions min_eff ms i).2 =
  length (filter (fun e => Qle_bool min_eff (effectiveness_score e) = false) ms).
Proof.
  induction ms as [|e ms IH]; intros i; simpl; [done|].
  specialize (IH (S i)).
  destruct (partition_positions min_eff ms (S i)) as [keep rem]. simpl in IH.
  destruct (Qle_bool min_eff (effectiveness_score e)) eqn:He.
  - rewrite filter_cons_False by congruence. exact IH.
  - rewrite filter_cons_True by done. simpl. lia.
Qed.

(** On a game whose index holds one vector per metadata entry,
    remove_ineffective_contexts(game_id, min_effectiveness) returns the
    number of entries scored below min_effectiveness. When there are none
    it changes nothing; otherwise the game's new index holds, in their old
    order, exactly the vectors of the entries scored at least
    min_effectiveness whose vector has settings.embedding_dimension
    components (another length fails new_index.add and that entry is
    dropped), and its metadata those entries, with index_position
    renumbered 0, 1, 2, ... The returned count is that of the entries
    scored below min_effectiveness, whatever was dropped. *)
Theorem remove_ineffective_exact (svc : Service) (game_id : string) (min_eff : Q)
    (st : Store) :
  indexes svc !! game_id = Some st ->
  length (vectors st) = length (metadata st) ->
  let K := filter (kept_pair min_eff) (zip (vectors st) (metadata st)) in
  let n := length (filter (fun e => Qle_bool min_eff (effectiveness_score e) = false)
                          (metadata st)) in
  remove_ineffective_contexts svc game_id min_eff =
  if Nat.eqb n 0 then (0%nat, svc)
  else (n, mkService (<[game_id := mkStore embedding_dimension K.*1
                          (imap (fun j e => set_index_position e j) K.*2)]> (indexes svc))
                     (entry_counts svc) (rebuilt svc ++ [game_id])).
Proof.
  intros Hst Hlen K n. unfold remove_ineffective_contexts. rewrite Hst.
  pose proof (partition_removed_length min_eff (metadata st) 0) as Hn.
  pose proof (reconstruct_partition min_eff (vectors st) (metadata st) (vectors st)
                (metadata st) Hlen [] [] eq_refl eq_refl eq_refl [] []) as Hr.
  simpl in Hr.
  destruct (partition_positions min_eff (metadata st) 0) as [keep rem]. simpl in Hn, Hr.
  fold n in Hn. subst K. rewrite Hr.
  destruct rem as [|r rs]; simpl in Hn.
  - rewrite <- Hn. done.
  - rewrite <- Hn. simpl. done.
Qed.

Definition demo_store : Store :=
  mkStore embedding_dimension
    [repeat 1%R embedding_dimension; repeat 2%R embedding_dimension;
     repeat 3%R embedding_dimension; [4%R]]
    [mkEntry 0 "a" (1 # 10) 0 0; mkEntry 1 "b" (1 # 2) 1 0; mkEntry 2 "c" (1 # 20) 2 0;
     mkEntry 3 "d" (9 # 10) 3 0]%string.

Definition demo_service : Service := mkService {[ "g" := demo_store ]}%string ∅ [].

Lemma remove_ineffective_exact_witness :
  indexes demo_service !! "g"%string = Some demo_store /\
  length (vectors demo_store) = length (metadata demo_store) /\
  remove_ineffective_contexts demo_service "g" (1 # 5) =
  (2%nat, mkService (<[ "g" := mkStore embedding_dimension [repeat 2%R embedding_dimension]
                                [mkEntry 1 "b" (1 # 2) 0 0] ]> (indexes demo_service))
                    ∅ ["g"])%string.
Proof.
  assert (H1 : indexes demo_service !! "g"%string = Some demo_store) by reflexivity.
  assert (H2 : length (vectors demo_store) = length (metadata demo_store)) by reflexivity.
  split; [exact H1|]. split; [exact H2|].
  rewrite (remove_ineffective_exact demo_service "g" (1 # 5) demo_store H1 H2).
  vm_compute. reflexivity.
Defined.

End RemovalFacts.

Module QualityFacts.
Import VectorStore Embeddings.
Local Open Scope R_scope.

Lemma div_INR_nonneg (a : R) (n : nat) : 0 <= a -> 0 <= a / INR n.
Proof.
  intros Ha. destruct n as [|n].
  - simpl. unfold Rdiv. rewrite Rinv_0. lra.
  - unfold Rdiv. apply Rmult_le_pos; [exact Ha|].
    apply Rlt_le, Rinv_0_lt_compat, lt_0_INR. lia.
Qed.

Lemma frac_unit (k n : nat) : (k <= n)%nat -> 0 <= INR k / INR n <= 1.
Proof.
  intros Hk. split; [apply div_INR_nonneg, pos_INR|].
  destruct n as [|n].
  - simpl. unfold Rdiv. rewrite Rinv_0. lra.
  - assert (Hn : 0 < INR (S n)) by (apply lt_0_INR; lia).
    apply le_INR in Hk.
    unfold Rdiv. apply (Rmult_le_reg_r (INR (S n))); [exact Hn|].
    rewrite Rmult_assoc, Rinv_l by lra. lra.
Qed.

Lemma Rmin_unit (x : R) : 0 <= x -> 0 <= Rmin x 1 <= 1.
Proof.
  intros Hx. split; [apply Rmin_glb; lra|apply Rbasic_fun.Rmin_r].
Qed.

Lemma fold_plus_sq_nonneg (f : R -> R) (v : vec) :
  (forall x, 0 <= f x) -> 0 <= fold_right Rplus 0 (map f v).
Proof.
  intros Hf. induction v as [|x v IH]; simpl; [lra|]. pose proof (Hf x). lra.
Qed.

Lemma sum_map_nonneg (f : R -> R) (v : vec) :
  (forall x, 0 <= f x) -> 0 <= sum (map f v).
Proof.
  intros Hf. induction v as [|x v IH]; simpl; [lra|]. pose proof (Hf x). lra.
Qed.

Lemma sparsity_unit (P : R -> Prop) `{forall x, Decision (P x)} (v : vec) :
  0 <= 1 - INR (length (filter P v)) / INR (length v) <= 1.
Proof.
  pose proof (frac_unit (length (filter P v)) (length v) (length_filter P v)). lra.
Qed.

Lemma weighted_unit (a b c : R) :
  0 <= a <= 1 -> 0 <= b <= 1 -> 0 <= c <= 1 ->
  0 <= a * (3 / 10) + b * (5 / 10) + c * (2 / 10) <= 1.
Proof. intros. lra. Qed.

(** _calculate_embedding_quality, the embedding_quality stored with each
    index entry, always lies in [0, 1]; it is 0 for the zero vector. *)
Theorem embedding_quality_unit (v : vec) :
  0 <= calculate_embedding_quality v <= 1 /\
  (sum_sq v = 0 -> calculate_embedding_quality v = 0).
Proof.
  unfold calculate_embedding_quality. cbv zeta. split.
  - destruct (Req_EM_T (sqrt (sum_sq v)) 0) as [_|Hn]; [lra|].
    set (normalized := map (fun x => x / sqrt (sum_sq v)) v).
    set (mu := mean normalized).
    assert (Hvar : 0 <= mean (map (fun x => (x - mu) * (x - mu)) normalized)).
    { unfold mean. apply div_INR_nonneg, fold_plus_sq_nonneg.
      intros x. apply Rle_0_sqr. }
    pose proof (Rmin_unit (mean (map (fun x => (x - mu) * (x - mu)) normalized) * 10)
                  ltac:(lra)) as Hm.
    match goal with |- context [INR (length (@filter _ _ _ ?P ?D ?l))] =>
      pose proof (@sparsity_unit P D l) as Hs end.
    destruct Hm as [Hm0 Hm1], Hs as [Hs0 Hs1].
    split; [apply Rmult_le_pos; assumption|].
    apply Rle_trans with (1 * 1); [apply Rmult_le_compat; assumption|lra].
  - intros H0. rewrite H0, sqrt_0.
    destruct (Req_EM_T 0 0) as [_|Hn]; [done|lra].
Qed.

(** get_embedding_quality_score always lies in [0, 1], and it is 0 for an
    empty vector or one whose components are all within 1e-8 of 0. *)
Theorem embedding_quality_score_unit (v : vec) :
  0 <= get_embedding_quality_score v <= 1 /\
  (Forall (fun x => Rabs x <= 1 / 100000000) v -> get_embedding_quality_score v = 0).
Proof.
  unfold get_embedding_quality_score. cbv zeta. split.
  - destruct (allclose_zero v); [lra|].
    pose proof (Rmin_unit (sqrt (sum_sq v)) (sqrt_pos _)) as H1.
    assert (Hvar : 0 <= np_var v).
    { unfold np_var. apply div_INR_nonneg, sum_map_nonneg. intros x. apply Rle_0_sqr. }
    pose proof (Rmin_unit (np_var v * 100) ltac:(lra)) as H2.
    match goal with |- context [INR (length (@filter _ _ _ ?P ?D ?l))] =>
      pose proof (@sparsity_unit P D l) as H3 end.
    apply weighted_unit; assumption.
  - intros Hall. unfold allclose_zero.
    replace (forallb _ v) with true; [done|].
    symmetry. apply forallb_forall. intros x Hx.
    rewrite Forall_forall in Hall. apply bool_decide_eq_true. apply Hall.
    by apply list_elem_of_In.
Qed.

Lemma embedding_quality_unit_witness :
  sum_sq [0; 0] = 0 /\ calculate_embedding_quality [0; 0] = 0.
Proof.
  assert (H : sum_sq [0; 0] = 0) by (unfold sum_sq; simpl; lra).
  split; [exact H|]. exact (proj2 (embedding_quality_unit [0; 0]) H).
Defined.

Lemma embedding_quality_score_unit_witness :
  Forall (fun x => Rabs x <= 1 / 100000000) [0; 0] /\ get_embedding_quality_score [0; 0] = 0.
Proof.
  assert (H : Forall (fun x => Rabs x <= 1 / 100000000) [0; 0])
    by (repeat constructor; rewrite Rabs_R0; lra).
  split; [exact H|]. exact (proj2 (embedding_quality_score_unit [0; 0]) H).
Defined.

End QualityFacts.


Module CacheFacts.
Import VectorStore Embeddings.
Local Open Scope R_scope.

Lemma count_entries_gen (t : R) (l : list CacheEntry) :
  forall v e,
  foldl (fun (acc : nat * nat) entry =>
           if entry_valid t entry then (S acc.1, acc.2) else (acc.1, S acc.2)) (v, e) l =
  ((v + length (filter (fun entry => entry_valid t entry = true) l))%nat,
   (e + length (filter (fun entry => entry_valid t entry = false) l))%nat).
Proof.
  induction l as [|x l IH]; intros v e; simpl; [f_equal; lia|].
  destruct (entry_valid t x) eqn:Hx.
  - rewrite IH, (filter_cons_True _ x), (filter_cons_False _ x) by congruence.
    simpl. f_equal; lia.
  - rewrite IH, (filter_cons_False _ x), (filter_cons_True _ x) by congruence.
    simpl. f_equal; lia.
Qed.

Lemma count_entries_spec (t : R) (l : list CacheEntry) :
  count_entries t l =
  (length (filter (fun entry => entry_valid t entry = true) l),
   length (filter (fun entry => entry_valid t entry = false) l)).
Proof. unfold count_entries. by rewrite count_entries_gen. Qed.

Lemma filter_length_split {A} (f : A -> bool) (l : list A) :
  (length (filter (fun x => f x = true) l) + length (filter (fun x => f x = false) l))%nat
  = length l.
Proof.
  induction l as [|x l IH]; simpl; [done|].
  destruct (f x) eqn:Hx.
  - rewrite (filter_cons_True _ x), (filter_cons_False _ x) by congruence. simpl. lia.
  - rewrite (filter_cons_False _ x), (filter_cons_True _ x) by congruence. simpl. lia.
Qed.

Lemma filter_all_true {A} (f : A -> bool) (l : list A) :
  (forall x, x ∈ l -> f x = true) ->
  (length (filter (fun x => f x = true) l), length (filter (fun x => f x = false) l))
  = (length l, 0%nat).
Proof.
  induction l as [|x l IH]; intros Hl; simpl; [done|].
  assert (Hx : f x = true) by (apply Hl; set_solver).
  rewrite (filter_cons_True _ x), (filter_cons_False _ x) by congruence.
  simpl. specialize (IH ltac:(intros y Hy; apply Hl; set_solver)). injection IH as -> ->.
  done.
Qed.

Lemma values_length (c : Cache) : length (map_to_list c).*2 = size c.
Proof. rewrite length_fmap. apply (length_map_to_list (M := gmap string)). Qed.

(** get_cache_stats splits the cache into valid and expired entries:
    valid_entries + expired_entries = total_entries = len(cache), and the
    cache_hit_rate lies in [0, 1]. *)
Theorem cache_stats_consistent (c : Cache) (t : R) :
  let s := get_cache_stats c t in
  (valid_entries s + expired_entries s)%nat = total_entries s /\
  total_entries s = size c /\
  0 <= cache_hit_rate s <= 1.
Proof.
  unfold get_cache_stats. rewrite count_entries_spec. simpl.
  pose proof (filter_length_split (entry_valid t) (map_to_list c).*2) as Hs.
  rewrite values_length in Hs.
  split; [exact Hs|]. split; [done|].
  apply QualityFacts.frac_unit. lia.
Qed.

Lemma entry_expired_valid (t : R) (e : CacheEntry) :
  entry_expired t e = negb (entry_valid t e).
Proof.
  unfold entry_expired, entry_valid.
  destruct (bool_decide (t - ce_timestamp e < cache_ttl)) eqn:H1;
  destruct (bool_decide (t - ce_timestamp e >= cache_ttl)) eqn:H2; try done.
  - apply bool_decide_eq_true in H1, H2. lra.
  - apply bool_decide_eq_false in H1, H2. lra.
Qed.

Lemma foldl_delete_lookup (ks : list string) :
  forall (c : Cache) k,
  foldl (fun c k => delete k c) c ks !! k = if decide (k ∈ ks) then None else c !! k.
Proof.
  induction ks as [|k' ks IH]; intros c k; simpl; [done|].
  rewrite IH. destruct (decide (k = k')) as [->|Hne].
  - rewrite lookup_delete_eq. by repeat case_decide; try set_solver.
  - rewrite lookup_delete_ne by congruence. apply decide_ext. set_solver.
Qed.

(** clear_expired_cache removes exactly the entries at least cache_ttl
    seconds old, keeps the others unchanged, and returns how many it
    removed; right after it, get_cache_stats at the same time reports no
    expired entry. *)
Theorem clear_expired_exact (c : Cache) (t : R) :
  let r := clear_expired_cache c t in
  r.2 = filter (fun kv => entry_valid t kv.2 = true) c /\
  r.1 = size (filter (fun kv => entry_expired t kv.2 = true) c) /\
  expired_entries (get_cache_stats r.2 t) = 0%nat /\
  valid_entries (get_cache_stats r.2 t) = size r.2.
Proof.
  unfold clear_expired_cache, expired_keys. cbn [fst snd].
  set (l := filter (fun kv => entry_expired t kv.2 = true) (map_to_list c)).
  assert (Hin : forall k, k ∈ map fst l <->
            exists e, c !! k = Some e /\ entry_expired t e = true).
  { intros k. rewrite ManagerExtras.map_fmap_eq, list_elem_of_fmap. split.
    - intros ([y e] & -> & Hy). apply list_elem_of_filter in Hy as [Hp Hy].
      apply elem_of_map_to_list in Hy. by exists e.
    - intros (e & He & Hp). exists (k, e). split; [done|].
      apply list_elem_of_filter. split; [done|]. by apply elem_of_map_to_list. }
  assert (Hc' : foldl (fun c k => delete k c) c (map fst l) =
                filter (fun kv => entry_valid t kv.2 = true) c).
  { apply map_eq. intros k. rewrite foldl_delete_lookup, map_lookup_filter.
    destruct (decide (k ∈ map fst l)) as [Hk|Hk].
    - apply Hin in Hk as (e & -> & He). simpl.
      rewrite option_guard_False; [done|]. rewrite entry_expired_valid in He.
      destruct (entry_valid t e); done.
    - destruct (c !! k) as [e|] eqn:He; [|done]. simpl.
      rewrite option_guard_True; [done|].
      destruct (entry_valid t e) eqn:Hv; [done|]. exfalso. apply Hk, Hin.
      exists e. split; [done|]. by rewrite entry_expired_valid, Hv. }
  rewrite Hc'. split; [done|]. split.
  - rewrite length_map, <- (map_size_list_to_map l).
    + f_equal. subst l. by rewrite map_filter_alt.
    + rewrite <- ManagerExtras.map_fmap_eq. rewrite ManagerExtras.map_fmap_eq.
      eapply sublist_NoDup; [apply (NoDup_fst_map_to_list c)|].
      apply fmap_sublist, sublist_filter.
  - set (c' := filter (fun kv => entry_valid t kv.2 = true) c).
    assert (Hall : forall e, e ∈ (map_to_list c').*2 -> entry_valid t e = true).
    { intros e He. apply list_elem_of_fmap in He as ([k e'] & -> & Hk).
      apply elem_of_map_to_list in Hk. subst c'.
      apply map_lookup_filter_Some in Hk as [_ Hv]. exact Hv. }
    pose proof (filter_all_true (entry_valid t) _ Hall) as Hf. injection Hf as H1 H2.
    unfold get_cache_stats. rewrite count_entries_spec. simpl.
    rewrite H1, H2, values_length. done.
Qed.

(** create_context_embedding caches what it fetches: on a miss (no entry,
    or an expired one) with the API returning v, it returns v and stores
    it under the context hash; any later call for the same hash less than
    cache_ttl seconds after the store returns v again without using the
    API's answer and leaves the cache as it is. *)
Theorem embedding_cache_round_trip (c : Cache) (h : string) (v : vec) (t1 t2 : R) :
  (forall e, c !! h = Some e -> entry_valid t1 e = false) ->
  let r := create_context_embedding c h (Some v) t1 t2 in
  r.1 = Some v /\
  r.2 !! h = Some (mkCacheEntry v t2) /\
  (forall k, k <> h -> r.2 !! k = c !! k) /\
  (forall embed t3 t4, t3 - t2 < cache_ttl ->
     create_context_embedding r.2 h embed t3 t4 = (Some v, r.2)).
Proof.
  intros Hmiss. cbv zeta.
  assert (Hr : (create_context_embedding c h (Some v) t1 t2).2 =
               <[h := mkCacheEntry v t2]> c /\
               (create_context_embedding c h (Some v) t1 t2).1 = Some v).
  { unfold create_context_embedding.
    destruct (c !! h) as [e|] eqn:He; [|done].
    rewrite (Hmiss e eq_refl). simpl. split; [|done]. by rewrite insert_delete_eq. }
  destruct Hr as [H2 H1].
  rewrite H1, H2. split; [done|]. split; [by rewrite lookup_insert_eq|]. split.
  - intros k Hk. by rewrite lookup_insert_ne by congruence.
  - intros embed t3 t4 Ht. unfold create_context_embedding. rewrite lookup_insert_eq.
    unfold entry_valid. simpl. rewrite bool_decide_true by exact Ht. done.
Qed.

Lemma embedding_cache_round_trip_witness :
  (forall e, (∅ : Cache) !! "h"%string = Some e -> entry_valid 0 e = false) /\
  (create_context_embedding ∅ "h" (Some [1]) 0 0).1 = Some [1] /\
  create_context_embedding (create_context_embedding ∅ "h" (Some [1]) 0 0).2 "h" None 10 10 =
    (Some [1], (create_context_embedding ∅ "h" (Some [1]) 0 0).2).
Proof.
  assert (H : forall e, (∅ : Cache) !! "h"%string = Some e -> entry_valid 0 e = false)
    by (intros e He; rewrite lookup_empty in He; discriminate).
  destruct (embedding_cache_round_trip ∅ "h" [1] 0 0 H) as (H1 & _ & _ & H4).
  split; [exact H|]. split; [exact H1|].
  apply H4. unfold cache_ttl. lra.
Defined.

End CacheFacts.

Module TrackingFacts.
Import PerfTracking.
Local Open Scope Q_scope.

Lemma q_lt_true (a b : Q) : a < b -> q_lt a b = true.
Proof.
  intros H. unfold q_lt. destruct (Qle_bool b a) eqn:E; [|done].
  apply Qle_bool_iff in E. exfalso. apply (Qlt_not_le _ _ H E).
Qed.

Lemma q_lt_true_iff (a b : Q) : q_lt a b = true <-> a < b.
Proof.
  split; [|apply q_lt_true]. unfold q_lt. intros H. apply negb_true_iff in H.
  apply Qnot_le_lt. intros Hle. apply Qle_bool_iff in Hle. congruence.
Qed.

Lemma within_ttl (t lu : Q) (ttl : Q) : t - lu < ttl -> q_lt t (lu + ttl) = true.
Proof.
  intros H. apply q_lt_true.
  destruct t as [tn td], lu as [ln ld], ttl as [un ud].
  unfold Qlt, Qminus, Qplus, Qopp in *. simpl in *. nia.
Qed.

Lemma stats_actions_key_ne (g g' : string) :
  stats_key g <> (prefix ++ "actions:" ++ g')%string.
Proof. unfold stats_key, prefix. simpl. discriminate. Qed.

Definition counter_ok (r : Redis) (g : string) : Prop :=
  forall s e, r !! (prefix ++ "actions:" ++ g)%string <> Some (RStats s, e).


Lemma increment_stats_key (r : Redis) (g g' : string) (t : Q) :
  (increment_counter r ("actions:" ++ g) t).2 !! stats_key g' = r !! stats_key g'.
Proof.
  unfold increment_counter, redis_setex.
  destruct (redis_get r (prefix ++ "actions:" ++ g) t) as [[]|];
    simpl; rewrite lookup_insert_ne; try done; apply not_eq_sym, stats_actions_key_ne.
Qed.

Lemma increment_counter_ok (r : Redis) (g : string) (t : Q) (n : Z) (r1 : Redis) :
  increment_counter r ("actions:" ++ g) t = (Some n, r1) -> counter_ok r1 g.
Proof.
  unfold increment_counter, redis_setex.
  destruct (redis_get r (prefix ++ "actions:" ++ g) t) as [[]|];
    intros [= <- <-]; intros s' e'; rewrite lookup_insert_eq; discriminate.
Qed.

Lemma increment_some (r : Redis) (g : string) (t : Q) :
  counter_ok r g -> exists n r1, increment_counter r ("actions:" ++ g) t = (Some n, r1).
Proof.
  intros Hc. unfold increment_counter, redis_get.
  destruct (r !! (prefix ++ "actions:" ++ g)%string) as [[v e]|] eqn:Hk; [|by eexists _, _].
  destruct (q_lt t e); [|by eexists _, _].
  destruct v as [s0|n0]; [exfalso; exact (Hc s0 e Hk)|by eexists _, _].
Qed.

(* The new average and trend written for a call with score e. *)
Definition tracked (s : GameStats) (e t : Q) : GameStats :=
  let n := (actions_count s + 1)%Z in
  let new_avg := (avg_effectiveness s * inject_Z (n - 1)%Z + e) / inject_Z n in
  mkStats n new_avg
    (if q_lt (avg_effectiveness s) new_avg then improving
     else if q_lt new_avg (avg_effectiveness s) then declining else stable) t.

Lemma tracking_step (r : Redis) (g : string) (e t : Q) (s : GameStats) :
  r !! stats_key g = Some (RStats s, last_updated s + 300) ->
  t - last_updated s < 300 -> counter_ok r g ->
  let r' := update_performance_tracking r g e t in
  r' !! stats_key g = Some (RStats (tracked s e t), t + 300) /\ counter_ok r' g.
Proof.
  intros Hs Ht Hc r'. subst r'. unfold update_performance_tracking.
  destruct (increment_some r g t Hc) as (n & r1 & Hi). rewrite Hi.
  pose proof (increment_stats_key r g g t) as Hk. rewrite Hi in Hk. simpl in Hk.
  pose proof (increment_counter_ok _ _ _ _ _ Hi) as Hc1.
  unfold get_game_stats, redis_get. rewrite Hk, Hs, within_ttl by exact Ht.
  unfold set_game_stats, redis_setex. split.
  - by rewrite lookup_insert_eq.
  - intros s' e'. rewrite lookup_insert_ne by apply stats_actions_key_ne.
    apply Hc1.
Qed.

Fixpoint chained (t : Q) (calls : list (Q * Q)) : Prop :=
  match calls with
  | [] => True
  | (_, t') :: rest => t' - t < 300 /\ chained t' rest
  end.

Lemma tracking_run_gen (g : string) (calls : list (Q * Q)) :
  forall r s, r !! stats_key g = Some (RStats s, last_updated s + 300) ->
  counter_ok r g -> chained (last_updated s) calls -> (0 <= actions_count s)%Z ->
  exists s', run_tracking r g calls !! stats_key g = Some (RStats s', last_updated s' + 300) /\
    actions_count s' = (actions_count s + Z.of_nat (length calls))%Z /\
    last_updated s' = default (last_updated s) (last (map snd calls)).
Proof.
  induction calls as [|[e t] calls IH]; intros r s Hs Hc Hch Hn.
  - exists s. simpl. split; [done|]. split; [lia|done].
  - destruct Hch as [Ht Hch]. simpl.
    destruct (tracking_step r g e t s Hs Ht Hc) as [Hs' Hc'].
    destruct (IH _ (tracked s e t) Hs' Hc' Hch ltac:(simpl; lia))
      as (s' & Hr & Hcount & Hlast).
    exists s'. split; [exact Hr|]. split; [rewrite Hcount; simpl; lia|].
    rewrite Hlast. cbn [map]. rewrite last_cons. simpl. destruct (last (map snd calls)); reflexivity.
Qed.

(** _update_performance_tracking keeps the stats of a game alive while it
    is called often enough: after _initialize_game_cache at t0 and a
    sequence of calls, each less than 300 seconds (the stats TTL) after the
    previous one, the cached stats count every call in actions_count,
    last_updated is the time of the last call, and get_game_stats returns
    them until 300 seconds after it. *)
Theorem tracking_running_mean (r : Redis) (g : string) (t0 : Q) (calls : list (Q * Q)) :
  counter_ok r g -> chained t0 calls ->
  exists s,
    (forall t, t - last_updated s < 300 ->
       get_game_stats (run_tracking (initialize_game_cache r g t0) g calls) g t = Some s) /\
    actions_count s = Z.of_nat (length calls) /\
    last_updated s = default t0 (last (map snd calls)).
Proof.
  intros Hc Hch.
  assert (H0 : initialize_game_cache r g t0 !! stats_key g =
               Some (RStats (mkStats 0 0 stable t0), last_updated (mkStats 0 0 stable t0) + 300)).
  { unfold initialize_game_cache, set_game_stats, redis_setex. by rewrite lookup_insert_eq. }
  assert (Hc0 : counter_ok (initialize_game_cache r g t0) g).
  { intros s e. unfold initialize_game_cache, set_game_stats, redis_setex.
    rewrite lookup_insert_ne by apply stats_actions_key_ne. apply Hc. }
  destruct (tracking_run_gen g calls _ _ H0 Hc0 Hch ltac:(simpl; lia))
    as (s & Hr & Hcount & Hlast).
  exists s. split; [|split].
  - intros t Ht. unfold get_game_stats, redis_get. rewrite Hr, within_ttl by exact Ht. done.
  - rewrite Hcount. simpl. lia.
  - exact Hlast.
Qed.

Lemma tracking_stats_untouched (r : Redis) (g : string) (e t : Q) :
  get_game_stats r g t = None ->
  update_performance_tracking r g e t !! stats_key g = r !! stats_key g.
Proof.
  intros Hnone. unfold update_performance_tracking.
  pose proof (increment_stats_key r g g t) as Hk.
  destruct (increment_counter r ("actions:" ++ g) t) as [[n|] r1] eqn:Hi; simpl in Hk;
    [|exact Hk].
  replace (get_game_stats r1 g t) with (None : option GameStats); [exact Hk|].
  unfold get_game_stats, redis_get in *. rewrite Hk. done.
Qed.

Lemma get_game_stats_none_later (r : Redis) (g : string) (t t' : Q) :
  get_game_stats r g t = None -> t <= t' -> get_game_stats r g t' = None.
Proof.
  unfold get_game_stats, redis_get. destruct (r !! stats_key g) as [[v ex]|]; [|done].
  intros H Hle. destruct (q_lt t' ex) eqn:E'; [|done].
  assert (E : q_lt t ex = true).
  { apply q_lt_true_iff in E'. apply q_lt_true_iff. apply (Qle_lt_trans _ t'); assumption. }
  rewrite E in H. exact H.
Qed.

(** _update_performance_tracking never recreates the stats of a game:
    once get_game_stats returns None at time t (the stats are absent or
    expired), any calls made at times t or later leave the stats entry
    as it was, and get_game_stats keeps returning None from then on. *)
Theorem tracking_never_recreates (r : Redis) (g : string) (t : Q) (calls : list (Q * Q)) :
  get_game_stats r g t = None -> Forall (fun c => t <= c.2) calls ->
  run_tracking r g calls !! stats_key g = r !! stats_key g /\
  forall t', t <= t' -> get_game_stats (run_tracking r g calls) g t' = None.
Proof.
  intros Hnone Hall.
  assert (Hl : run_tracking r g calls !! stats_key g = r !! stats_key g).
  { unfold run_tracking. revert r Hnone. induction Hall as [|c calls Hc Hall IH];
      intros r Hnone; [done|]. simpl.
    assert (Hr : update_performance_tracking r g c.1 c.2 !! stats_key g = r !! stats_key g)
      by (apply tracking_stats_untouched, (get_game_stats_none_later _ _ t); assumption).
    rewrite IH; [exact Hr|]. unfold get_game_stats, redis_get in *. rewrite Hr. exact Hnone. }
  split; [exact Hl|]. intros t' Ht'. apply (get_game_stats_none_later _ _ t); [|exact Ht'].
  unfold get_game_stats, redis_get in *. rewrite Hl. exact Hnone.
Qed.

Lemma counter_ok_empty (g : string) : counter_ok ∅ g.
Proof. intros s e. rewrite lookup_empty. discriminate. Qed.

Lemma tracking_running_mean_witness :
  counter_ok ∅ "g" /\ chained 0 [(1 # 2, 10); (1, 100)] /\
  exists s,
    get_game_stats (run_tracking (initialize_game_cache ∅ "g" 0) "g"
                      [(1 # 2, 10); (1, 100)]) "g" 150 = Some s /\
    actions_count s = 2%Z /\ last_updated s = 100.
Proof.
  assert (Hc : counter_ok ∅ "g") by apply counter_ok_empty.
  assert (Hch : chained 0 [(1 # 2, 10); (1, 100)]) by (simpl; split; [|split]; easy).
  split; [exact Hc|]. split; [exact Hch|].
  destruct (tracking_running_mean ∅ "g" 0 [(1 # 2, 10); (1, 100)] Hc Hch)
    as (s & Hget & Hn & Hlast).
  simpl in Hn, Hlast. exists s. split; [apply Hget; rewrite Hlast; reflexivity|].
  split; [exact Hn|exact Hlast].
Defined.

Lemma tracking_never_recreates_witness :
  get_game_stats ∅ "g" 5 = None /\ Forall (fun c : Q * Q => 5 <= c.2) [(1, 5); (1 # 2, 20)] /\
  get_game_stats (run_tracking ∅ "g" [(1, 5); (1 # 2, 20)]) "g" 30 = None.
Proof.
  assert (H0 : get_game_stats ∅ "g" 5 = None) by reflexivity.
  assert (Hf : Forall (fun c : Q * Q => 5 <= c.2) [(1, 5); (1 # 2, 20)])
    by (repeat constructor; discriminate).
  split; [exact H0|]. split; [exact Hf|].
  apply (proj2 (tracking_never_recreates ∅ "g" 5 _ H0 Hf)). discriminate.
Defined.

End TrackingFacts.

Module JigsawFacts.
Import Jigsaw.
Local Open Scope Q_scope.

(* Attempts after which the loop goes on to the next one: every outcome
   except a 200 with a JSON body and an unexpected exception. *)
Definition retryable (a : Attempt) : bool :=
  match a with
  | HttpResponse 200%Z (Some _) => false
  | HttpResponse _ _ => true
  | HttpTimeout | HttpRequestError => true
  | HttpOtherError => false
  end.

(* max(0.0, min(1.0, x)) on a float, case by case. *)
Definition clamp (f : PyFloat) : PyFloat :=
  match f with
  | PFin q => if Qle_bool q 0 then PFin 0 else if Qle_bool 1 q then PFin 1 else PFin q
  | PInf | NaN => PFin 1
  | NInf => PFin 0
  end.

Section Generate.
Variable float_of_str : string -> option PyFloat.
Variable other_fields_valid : list (string * json) -> bool.
Variable repr_json : json -> string.

Lemma retry_step (o : nat -> Attempt) (attempt left : nat) :
  retryable (o attempt) = true ->
  retry_loop float_of_str other_fields_valid repr_json o attempt (S left) =
  if Nat.eqb attempt (max_retries - 1) then Raised
  else retry_loop float_of_str other_fields_valid repr_json o (S attempt) left.
Proof.
  intros Hr. simpl. destruct (o attempt) as [status body| | |]; try reflexivity;
    [|discriminate].
  destruct (Z.eq_dec status 200%Z) as [->|Hne].
  - destruct body; [discriminate|reflexivity].
  - destruct status as [|p|p]; try reflexivity;
      repeat (destruct p as [p|p|]; try reflexivity); congruence.
Qed.

Lemma retry_loop_prefix (o1 o2 : nat -> Attempt) (left : nat) :
  forall attempt, (forall k, (attempt <= k < attempt + left)%nat -> o1 k = o2 k) ->
  retry_loop float_of_str other_fields_valid repr_json o1 attempt left =
  retry_loop float_of_str other_fields_valid repr_json o2 attempt left.
Proof.
  induction left as [|left IH]; intros attempt H; [reflexivity|]. simpl.
  rewrite (H attempt) by lia. rewrite (IH (S attempt)) by (intros k Hk; apply H; lia).
  reflexivity.
Qed.

Lemma retry_loop_skip (o : nat -> Attempt) (k : nat) :
  (k < 3)%nat -> (forall j, (j < k)%nat -> retryable (o j) = true) ->
  retry_loop float_of_str other_fields_valid repr_json o 0 max_retries =
  retry_loop float_of_str other_fields_valid repr_json o k (3 - k).
Proof.
  induction k as [|k IH]; intros Hk Hpre; [reflexivity|].
  rewrite IH by (lia || (intros j Hj; apply Hpre; lia)).
  replace (3 - k)%nat with (S (3 - S k)) by lia.
  rewrite retry_step by (apply Hpre; lia).
  replace (Nat.eqb k (max_retries - 1)) with false; [reflexivity|].
  symmetry. apply Nat.eqb_neq. unfold max_retries. lia.
Qed.

End Generate.

(** generate_boss_action makes at most max_retries (3) attempts: two
    runs whose first three attempts have the same outcomes return the
    same result, whatever the later outcomes. *)
Theorem generate_uses_three_attempts
    (float_of_str : string -> option PyFloat)
    (other_fields_valid : list (string * json) -> bool)
    (repr_json : json -> string)
    (o1 o2 : nat -> Attempt) (pc : PlayerContextData) (bh : PyFloat) (phase : string) :
  (forall k, (k < 3)%nat -> o1 k = o2 k) ->
  generate_boss_action float_of_str other_fields_valid repr_json o1 pc bh phase =
  generate_boss_action float_of_str other_fields_valid repr_json o2 pc bh phase.
Proof.
  intros H. unfold generate_boss_action.
  rewrite (retry_loop_prefix float_of_str other_fields_valid repr_json o1 o2 max_retries 0)
    by (intros k Hk; apply H; unfold max_retries in Hk; lia).
  reflexivity.
Qed.

(** The retry policy of generate_boss_action for a finite boss_health:
    when the attempts before attempt k < 3 all failed in a retryable way
    (a non-200 status, a 200 without a JSON body, a timeout or a request
    error), a 200 response at attempt k whose JSON is an object returns its
    parsed "result"; any other non-retryable outcome at k (an unexpected
    exception, or a JSON body that is not an object) gives the fallback
    action at once; and when all three attempts fail in a retryable way
    the fallback action is returned. *)
Theorem generate_retry_policy
    (float_of_str : string -> option PyFloat)
    (other_fields_valid : list (string * json) -> bool)
    (repr_json : json -> string)
    (o : nat -> Attempt) (pc : PlayerContextData) (bh : PyFloat) (phase : string) :
  py_int_ok bh = true ->
  (forall k fields, (k < 3)%nat -> (forall j, (j < k)%nat -> retryable (o j) = true) ->
     o k = HttpResponse 200%Z (Some (JObj fields)) ->
     generate_boss_action float_of_str other_fields_valid repr_json o pc bh phase =
     Some (parse_boss_action_response float_of_str other_fields_valid repr_json
             (dict_get fields "result" (JObj [])))) /\
  (forall k, (k < 3)%nat -> (forall j, (j < k)%nat -> retryable (o j) = true) ->
     retryable (o k) = false -> (forall fields, o k <> HttpResponse 200%Z (Some (JObj fields))) ->
     generate_boss_action float_of_str other_fields_valid repr_json o pc bh phase =
     Some (create_fallback_action (Some pc) bh phase)) /\
  ((forall j, (j < 3)%nat -> retryable (o j) = true) ->
     generate_boss_action float_of_str other_fields_valid repr_json o pc bh phase =
     Some (create_fallback_action (Some pc) bh phase)).
Proof.
  intros Hb. unfold generate_boss_action. rewrite Hb. cbn [negb].
  split; [|split].
  - intros k fields Hk Hpre Ho. rewrite (retry_loop_skip _ _ _ o k Hk Hpre).
    replace (3 - k)%nat with (S (2 - k)) by lia. simpl. rewrite Ho. reflexivity.
  - intros k Hk Hpre Hr Hno. rewrite (retry_loop_skip _ _ _ o k Hk Hpre).
    replace (3 - k)%nat with (S (2 - k)) by lia. simpl.
    destruct (o k) as [status body| | |] eqn:Ho; try discriminate; [|reflexivity].
    destruct (Z.eq_dec status 200%Z) as [->|Hne].
    + destruct body as [v|]; [|discriminate].
      destruct v; try reflexivity. exfalso. eapply Hno. reflexivity.
    + exfalso. destruct status as [|p|p]; try discriminate;
        repeat (destruct p as [p|p|]; try discriminate); congruence.
  - intros Hall. rewrite (retry_loop_skip _ _ _ o 2) by (lia || (intros j Hj; apply Hall; lia)).
    simpl (3 - 2)%nat. rewrite retry_step by (apply Hall; lia). reflexivity.
Qed.

(** _parse_boss_action_response clamps a numeric intensity instead of
    rejecting it: for a JSON object whose intensity converts with float()
    and whose other fields pass validation, the response carries the
    boss_action and action_type of the object, the reasoning combined
    from its truthy reasoning, adaptation_reason and counter_strategy
    fields, and the intensity max(0, min(1, x)), which maps NaN and +inf to
    1.0 and -inf to 0.0; the fallback action is never taken because of the
    intensity. *)
Theorem parse_clamps_intensity
    (float_of_str : string -> option PyFloat)
    (other_fields_valid : list (string * json) -> bool)
    (repr_json : json -> string)
    (fields : list (string * json)) (raw : PyFloat) :
  py_float float_of_str (dict_get fields "intensity" (JNum (PFin (5 # 10)))) = Some raw ->
  forallb (fun kd => optional_float_ok float_of_str fields kd.1 kd.2)
    [("duration", JNull); ("cooldown", JNull); ("damage_multiplier", JNum (PFin 1));
     ("success_probability", JNull); ("confidence_level", JNull)]%string = true ->
  other_fields_valid fields = true ->
  parse_boss_action_response float_of_str other_fields_valid repr_json (JObj fields) =
  mkResponse (dict_get fields "boss_action" (JStr "basic attack"))
             (dict_get fields "action_type" (JStr "attack"))
             (clamp raw) (reasoning_of repr_json fields).
Proof.
  intros Hi Hopt Hval. unfold parse_boss_action_response. rewrite Hi, Hopt, Hval.
  assert (Hc : py_max (PFin 0) (py_min (PFin 1) raw) = clamp raw).
  { destruct raw as [q| | |]; try reflexivity. unfold py_max, py_min, py_lt, clamp.
    destruct (Qle_bool 1 q) eqn:E1; destruct (Qle_bool q 0) eqn:E0; simpl;
      try rewrite E1; try rewrite E0; try reflexivity.
    all: exfalso; apply Qle_bool_iff in E1, E0; pose proof (Qle_trans _ _ _ E1 E0) as H10;
      unfold Qle in H10; simpl in H10; lia. }
  rewrite Hc. simpl andb.
  replace (unit_interval (clamp raw)) with true; [reflexivity|].
  symmetry. destruct raw as [q| | |]; try reflexivity. unfold clamp.
  destruct (Qle_bool q 0) eqn:E0; [reflexivity|]. destruct (Qle_bool 1 q) eqn:E1; [reflexivity|].
  unfold unit_interval. apply andb_true_iff. split; apply Qle_bool_iff.
  - apply Qlt_le_weak, Qnot_le_lt. intros H. apply Qle_bool_iff in H. congruence.
  - apply Qlt_le_weak, Qnot_le_lt. intros H. apply Qle_bool_iff in H. congruence.
Qed.

Definition no_float (_ : string) : option PyFloat := None.
Definition all_valid (_ : list (string * json)) : bool := true.
Definition no_repr (_ : json) : string := ""%string.

Definition demo_result : json := JObj [("result", JObj [("intensity", JNum (PFin 2))])]%string.

Lemma generate_uses_three_attempts_witness :
  (forall k, (k < 3)%nat -> (fun _ => HttpTimeout) k =
     (fun k => if Nat.ltb k 3 then HttpTimeout else HttpResponse 200 (Some demo_result)) k) /\
  generate_boss_action no_float all_valid no_repr (fun _ => HttpTimeout) (mkPlayer (PFin 0)) (PFin 1)
    "p" =
  generate_boss_action no_float all_valid no_repr
    (fun k => if Nat.ltb k 3 then HttpTimeout else HttpResponse 200 (Some demo_result))
    (mkPlayer (PFin 0)) (PFin 1) "p".
Proof.
  assert (H : forall k, (k < 3)%nat -> (fun _ => HttpTimeout) k =
     (fun k => if Nat.ltb k 3 then HttpTimeout else HttpResponse 200 (Some demo_result)) k).
  { intros k Hk. simpl. apply Nat.ltb_lt in Hk. rewrite Hk. reflexivity. }
  split; [exact H|]. exact (generate_uses_three_attempts _ _ _ _ _ _ _ _ H).
Defined.

Lemma generate_retry_policy_witness :
  py_int_ok (PFin (1 # 2)) = true /\
  generate_boss_action no_float all_valid no_repr
    (fun k => match k with O => HttpTimeout | _ => HttpResponse 200 (Some demo_result) end)
    (mkPlayer (PFin 0)) (PFin (1 # 2)) "p" =
  Some (mkResponse (JStr "basic attack") (JStr "attack") (PFin 1) None).
Proof.
  assert (Hb : py_int_ok (PFin (1 # 2)) = true) by reflexivity.
  split; [exact Hb|].
  destruct (generate_retry_policy no_float all_valid no_repr
              (fun k => match k with O => HttpTimeout | _ => HttpResponse 200 (Some demo_result) end)
              (mkPlayer (PFin 0)) (PFin (1 # 2)) "p" Hb) as [H1 _].
  rewrite (H1 1%nat [("result", JObj [("intensity", JNum (PFin 2))])]%string).
  - vm_compute. reflexivity.
  - lia.
  - intros j Hj. assert (j = 0%nat) as -> by lia. reflexivity.
  - reflexivity.
Defined.

Definition demo_fields : list (string * json) :=
  [("intensity", JNum NaN); ("reasoning", JStr "flank"); ("adaptation_reason", JStr "");
   ("counter_strategy", JStr "stay close")]%string.

Lemma parse_clamps_intensity_witness :
  py_float no_float (dict_get demo_fields "intensity" (JNum (PFin (5 # 10)))) = Some NaN /\
  parse_boss_action_response no_float all_valid no_repr (JObj demo_fields) =
  mkResponse (JStr "basic attack") (JStr "attack") (PFin 1)
             (Some "Decision: flank | Counter-strategy: stay close")%string.
Proof.
  assert (H1 : py_float no_float (dict_get demo_fields "intensity"
                 (JNum (PFin (5 # 10)))) = Some NaN) by reflexivity.
  split; [exact H1|].
  rewrite (parse_clamps_intensity no_float all_valid no_repr _ NaN H1 ltac:(reflexivity)
             ltac:(reflexivity)).
  vm_compute. reflexivity.
Defined.

End JigsawFacts.
